(** * StructAnalyzer: the per-type layout record [StructInfo]

    A shallow embedding of [src/lib/StructAnalyzer.h]: the allocation
    classifier ([getAllocCache] and its helpers), the leak registry
    ([addLeakSourceInfo], [getSiteInfo]), the field-building operations of
    the flattened layout, the container query and the two report helpers
    [dumpCmpSrc] and [dumpPred].  The layout cache and the flattening loop
    of [StructAnalyzer], whose bodies are in StructAnalyzer.cpp, are
    modelled from the specification over these operations.

    Conventions.
    - [unsigned] values are [N]; additions that the source performs on
      them wrap modulo [2^32].  [uint64_t] and [int64_t] values are [Z].
    - Where the code looks into an LLVM object, a pointer to it is
      modelled by the object (a tree unfolding of the value graph, as deep
      as the code looks); where the code only stores and compares a
      pointer (map and set keys), it is an address in [N], 0 for null.
    - A call that the source can leave through [assert], through a null
      dereference or through an index or iterator outside its range yields
      [Aborts]; assertions are taken as compiled in. *)

From stdpp Require Import gmap strings list fin_maps pretty sorting.
From Stdlib Require Import ZArith Lia.

Local Open Scope Z_scope.
Set Warnings "-register-all".

(** ** Outcomes of fallible code *)

Inductive fault : Type :=
| NullDereference
| AssertionFailed (msg : string)
| IteratorPastEnd
| IndexOutOfRange
| CastOutOfRange
| LoopBoundExceeded.

Inductive outcome (A : Type) : Type :=
| Returns (a : A)
| Aborts (f : fault).
Arguments Returns {A} a.
Arguments Aborts {A} f.

#[global] Instance outcome_ret : MRet outcome := fun A a => Returns a.

#[global] Instance outcome_bind : MBind outcome := fun A B k m =>
  match m with
  | Returns a => k a
  | Aborts f => Aborts f
  end.

(** ** The slice of the LLVM object model the analyzer inspects *)

Module IR.

(** [llvm::StructType], with the address that identifies it. *)
Record StructType : Type := mkStructType {
  st_addr : N;
  st_name : string;
  st_isOpaque : bool
}.

(** [llvm::Type] (typed pointers: [PointerType::getElementType]). *)
Inductive LType : Type :=
| StructTy (st : StructType)
| PointerTy (elt : LType)
| ArrayTy (elt : LType)
| OtherTy.

(** [llvm::Function]: its name, the types of its formal parameters, and
    whether it is an intrinsic. *)
Record Function : Type := mkFunction {
  fn_name : string;
  fn_args : list LType;
  fn_isIntrinsic : bool
}.

(** [llvm::Value].  A [CallInst] whose callee is [None] is an indirect
    call ([getCalledFunction()] is null).  A [GlobalVariable] carries what
    [isConstant()], [getInitializer()] and [users()] give; a [StoreInst]
    carries its operand 0, the stored value. *)
Inductive Value : Type :=
| GlobalVariable (isConstant : bool) (initializer : option Value)
                 (users : list Value)
| LoadInst (operand0 : Value)
| StoreInst (operand0 : Value)
| CallInst (calledFunction : option Function) (argOperands : list Value)
| GetElementPtrInst (parentModule : N) (pointerOperandType : LType)
                    (operands : list Value)
| BitCastInst (operand0 : Value)
| OtherInst
| ConstantExpr (gepWithNoNotionalOverIndexing : bool) (operands : list Value)
| ConstantDataSequential (asCString : option string)
| ConstantInt (sextValue : Z)
| ConstantPointerNull
| Argument (argNo : N)
| OtherValue.

(** [isa<Instruction>(v)] *)
Definition isInstruction (v : Value) : bool :=
  match v with
  | LoadInst _ | StoreInst _ | CallInst _ _ | GetElementPtrInst _ _ _
  | BitCastInst _ | OtherInst => true
  | _ => false
  end.

(** A recorded allocation call site: the [CallInst] with its address, its
    callee, its operand 0 and the instructions of its parent block, in
    order and each with its address. *)
Record CallSite : Type := mkCallSite {
  cs_addr : N;
  cs_calledFunction : option Function;
  cs_operand0 : Value;
  cs_parent : list (N * Value)
}.

End IR.
Import IR.

(** ** Allocation classifier *)

Definition generic_alloc : gset string :=
  {[ "kmalloc"; "kzalloc"; "__kmalloc"; "__kmalloc_node"; "kmalloc_node";
     "kzalloc_node"; "kcalloc_node"; "kcalloc"; "kvzalloc"; "kvzalloc_node" ]}.

Definition specific_alloc : gset string :=
  {[ "kmem_cache_alloc"; "kmem_cache_alloc_node"; "kmem_cache_zalloc" ]}.

(** [getStructType]: strips pointers and arrays down to a struct type. *)
Fixpoint getStructTypeOf (ty : LType) : option StructType :=
  match ty with
  | StructTy st => Some st
  | PointerTy elt => getStructTypeOf elt
  | ArrayTy elt => getStructTypeOf elt
  | OtherTy => None
  end.

Definition getStructType (ty : option LType) : option StructType :=
  match ty with
  | None => None
  | Some t => getStructTypeOf t
  end.

Definition isPointerTy (ty : LType) : bool :=
  match ty with PointerTy _ => true | _ => false end.

(** The walk of [getProducerOfArgument0] through the parent block: [it]
    is at the head of [blk]; [prev] is the instruction before it ([None]
    while [it] is [begin()]). *)
Fixpoint walkBlock (blk : list (N * Value)) (target : N) (prev : option Value)
  : outcome (option Value) :=
  match blk with
  | [] => Aborts IteratorPastEnd
  | (a, v) :: rest =>
      if (a =? target)%N then Returns prev
      else walkBlock rest target (Some v)
  end.

Definition getProducerOfArgument0 (CI : CallSite) : outcome (option Value) :=
  if isInstruction (cs_operand0 CI) then Returns (Some (cs_operand0 CI))
  else walkBlock (cs_parent CI) (cs_addr CI) None.

(** [haystack.find(needle) != npos] *)
Fixpoint contains (needle hay : string) : bool :=
  String.prefix needle hay ||
  match hay with
  | EmptyString => false
  | String _ rest => contains needle rest
  end.

(** The body of the loop over [globalVar->users()], for one user:
    [Some name] is the [return StrValue], [None] falls through to the next
    user. *)
Definition traceUser (u : Value) : outcome (option string) :=
  match u with
  | StoreInst (CallInst callee args) =>
      match callee with
      | None => Aborts NullDereference
      | Some f =>
          if contains "kmem_cache_create" (fn_name f) then
            match args with
            | [] => Aborts (AssertionFailed "getArgOperand")
            | ConstantExpr true ops :: _ =>
                match ops with
                | [] => Aborts (AssertionFailed "getOperand")
                | GlobalVariable true None _ :: _ =>
                    Aborts (AssertionFailed "getInitializer")
                | GlobalVariable true (Some (ConstantDataSequential s)) _ :: _ =>
                    match s with
                    | Some str => Returns (Some str)
                    | None => Aborts (AssertionFailed "getAsCString")
                    end
                | _ => Returns None
                end
            | _ => Returns None
            end
          else Returns None
      end
  | _ => Returns None
  end.

Fixpoint scanUsers (us : list Value) : outcome (option string) :=
  match us with
  | [] => Returns None
  | u :: rest =>
      r ← traceUser u;
      match r with
      | Some name => Returns (Some name)
      | None => scanUsers rest
      end
  end.

(** The dedicated-cache branch of the site loop for one site:
    [Some name] is the early [return], [None] is [continue] or falling out
    of the branch.  The formal parameter [allocFunction->getArg(0)] is an
    [Argument], so the first [dyn_cast<GlobalVariable>] gives null.
    [loadInst] stands for the load through its operand 0. *)
Definition traceSpecific (CI : CallSite) (allocFunction : Function)
  : outcome (option string) :=
  match fn_args allocFunction with
  | [] => Aborts (AssertionFailed "getArg")
  | arg0Type :: _ =>
      let stype := getStructType (Some arg0Type) in
      let globalVar : option Value := None in
      previousInstruction ← getProducerOfArgument0 CI;
      match previousInstruction with
      | None => Returns None
      | Some prev =>
          let loadInst := match prev with LoadInst p => Some p | _ => None end in
          match stype with
          | Some st =>
              if isPointerTy arg0Type then
                let globalVar :=
                  match globalVar with
                  | Some g => Some g
                  | None =>
                      match loadInst with
                      | Some (GlobalVariable c i us) => Some (GlobalVariable c i us)
                      | _ => None
                      end
                  end in
                match globalVar with
                | Some (GlobalVariable _ _ us) =>
                    if String.eqb (st_name st) "struct.kmem_cache"
                    then scanUsers us
                    else Returns None
                | _ => Returns None
                end
              else Returns None
          | None => Returns None
          end
      end
  end.

(** One pass of the loop body: the updated [found_generic_alloc] and the
    early return, if any. *)
Definition siteStep (CI : CallSite) (found : bool)
  : outcome (bool * option string) :=
  match cs_calledFunction CI with
  | None => Aborts NullDereference
  | Some allocFunction =>
      let found' :=
        if bool_decide (fn_name allocFunction ∈ generic_alloc) then true
        else found in
      if bool_decide (fn_name allocFunction ∈ specific_alloc) then
        r ← traceSpecific CI allocFunction;
        Returns (found', r)
      else Returns (found', None)
  end.

(** The loop over [allocSite]: [inl name] is the early [return] of a
    recovered name, [inr found] the value of [found_generic_alloc] when the
    loop runs to its end. *)
Fixpoint siteLoop (sites : list CallSite) (found : bool)
  : outcome (string + bool) :=
  match sites with
  | [] => Returns (inr found)
  | CI :: rest =>
      r ← siteStep CI found;
      match r.2 with
      | Some name => Returns (inl name)
      | None => siteLoop rest r.1
      end
  end.

(** [uint64_t] to [double]: round to nearest, ties to even, on a 53-bit
    significand.  Exact up to [2^53]. *)
Definition double_of_u64 (a : Z) : Z :=
  if a <? 2 ^ 53 then a
  else
    let e := Z.log2 a - 52 in
    let q := a / 2 ^ e in
    let r := a mod 2 ^ e in
    let half := 2 ^ (e - 1) in
    if r <? half then q * 2 ^ e
    else if half <? r then (q + 1) * 2 ^ e
    else if Z.even q then q * 2 ^ e
    else (q + 1) * 2 ^ e.

(** [int i = 3; while (pow(2,i) < getAllocSize()) i++;].  [pow(2,i)] is
    exact; the right operand is converted to [double].  The loop is run
    for at most [fuel] tests. *)
Fixpoint bucketLoop (fuel : nat) (i : Z) (allocSize : Z) : option Z :=
  match fuel with
  | O => None
  | S fuel' =>
      if 2 ^ i <? double_of_u64 allocSize
      then bucketLoop fuel' (i + 1) allocSize
      else Some i
  end.

(** 64 tests are enough for every [uint64_t] size (lemma
    [bucketExponent_total]). *)
Definition bucketExponent (allocSize : Z) : option Z :=
  bucketLoop 64 3 allocSize.

(** The name chosen for the computed power of two. *)
Definition bucketName (largerAlloc : Z) : string :=
  if (largerAlloc <? 8192) && (4096 <=? largerAlloc) then "kmalloc-8k"
  else if (largerAlloc <? 4096) && (2048 <=? largerAlloc) then "kmalloc-4k"
  else if (largerAlloc <? 2048) && (1024 <=? largerAlloc) then "kmalloc-2k"
  else if (largerAlloc <? 1024) && (512 <=? largerAlloc) then "kmalloc-1k"
  else "kmalloc-" +:+ pretty (Z.to_N largerAlloc).

(** The [if (found_generic_alloc)] block. *)
Definition genericCacheName (allocSize : Z) : outcome string :=
  match bucketExponent allocSize with
  | None => Aborts LoopBoundExceeded
  | Some i =>
      if 2 ^ 64 <=? 2 ^ i then Aborts CastOutOfRange
      else Returns (bucketName (2 ^ i))
  end.

(** [allocSite] is given in the order in which the set is iterated. *)
Definition getAllocCache (allocSite : list CallSite) (allocSize : Z)
  : outcome string :=
  r ← siteLoop allocSite false;
  match r with
  | inl name => Returns name
  | inr true => genericCacheName allocSize
  | inr false => Returns ""
  end.

(** ** Leak registry *)

Record CheckSrc : Type := mkCheckSrc {
  src1 : list N;
  src2 : list N;
  branchTaken : N
}.

Record SiteInfo : Type := mkSiteInfo {
  TYPE : N;
  fromSt : N;
  fromValue : N;
  lenSt : N;
  lenValue : N;
  leakCheckMap : gmap string (gmap N CheckSrc)
}.

(** What a call leaves behind: the warnings it logged and its outcome. *)
Record logged (A : Type) : Type := mkLogged {
  warnings : list string;
  result : outcome A
}.
Arguments mkLogged {A} warnings result.
Arguments warnings {A} l.
Arguments result {A} l.

(** [addLeakSourceInfo] on the member [leakInfo].  The two statements after
    [assert(false)] are not reached. *)
Definition addLeakSourceInfo (leakInfo : gmap N (gmap N SiteInfo))
    (offset : N) (V : N) (siteInfo : SiteInfo)
  : logged (gmap N (gmap N SiteInfo)) :=
  match leakInfo !! offset with
  | None =>
      let LSI : gmap N SiteInfo := <[V := siteInfo]> ∅ in
      mkLogged [] (Returns (<[offset := LSI]> leakInfo))
  | Some LSI =>
      match LSI !! V with
      | None =>
          mkLogged [] (Returns (<[offset := <[V := siteInfo]> LSI]> leakInfo))
      | Some _ =>
          mkLogged ["Are we trying to update siteInfo?"]
                   (Aborts (AssertionFailed "BUG?"))
      end
  end.

Definition getSiteInfo (leakInfo : gmap N (gmap N SiteInfo))
    (offset : N) (V : N) : option SiteInfo :=
  match leakInfo !! offset with
  | None => None
  | Some LSI =>
      match LSI !! V with
      | None => None
      | Some info => Some info
      end
  end.

(** ** Flattened layout *)

(** The layout members of [StructInfo]. *)
Record StructInfo : Type := mkStructInfo {
  arrayFlags : list bool;
  pointerFlags : list bool;
  unionFlags : list bool;
  fieldSize : list N;
  offsetMap : list N;
  fieldOffset : list N;
  fieldRealSize : list N;
  elementType : gmap N (gset N);
  containers : gset (N * N)
}.

(** A default-constructed [StructInfo]. *)
Definition emptyStructInfo : StructInfo :=
  mkStructInfo [] [] [] [] [] [] [] ∅ ∅.

Definition wrap32 (n : N) : N := (n mod 2 ^ 32)%N.

Definition addContainer (s : StructInfo) (st : N) (offset : N) : StructInfo :=
  mkStructInfo (arrayFlags s) (pointerFlags s) (unionFlags s) (fieldSize s)
    (offsetMap s) (fieldOffset s) (fieldRealSize s) (elementType s)
    ({[ (st, offset) ]} ∪ containers s).

Definition addOffsetMap (s : StructInfo) (newOffsetMap : N) : StructInfo :=
  mkStructInfo (arrayFlags s) (pointerFlags s) (unionFlags s) (fieldSize s)
    (offsetMap s ++ [newOffsetMap]) (fieldOffset s) (fieldRealSize s)
    (elementType s) (containers s).

Definition addField (s : StructInfo) (newFieldSize : N)
    (isArray isPointer isUnion : bool) : StructInfo :=
  mkStructInfo (arrayFlags s ++ [isArray]) (pointerFlags s ++ [isPointer])
    (unionFlags s ++ [isUnion]) (fieldSize s ++ [newFieldSize])
    (offsetMap s) (fieldOffset s) (fieldRealSize s) (elementType s)
    (containers s).

Definition addFieldOffset (s : StructInfo) (newOffset : N) : StructInfo :=
  mkStructInfo (arrayFlags s) (pointerFlags s) (unionFlags s) (fieldSize s)
    (offsetMap s) (fieldOffset s ++ [newOffset]) (fieldRealSize s)
    (elementType s) (containers s).

Definition addRealSize (s : StructInfo) (size : N) : StructInfo :=
  mkStructInfo (arrayFlags s) (pointerFlags s) (unionFlags s) (fieldSize s)
    (offsetMap s) (fieldOffset s) (fieldRealSize s ++ [size])
    (elementType s) (containers s).

Definition getSize (s : StructInfo) : nat := length (offsetMap s).
Definition getExpandedSize (s : StructInfo) : nat := length (arrayFlags s).

(** [fieldSize[0] == 0]; indexing an empty vector is undefined. *)
Definition isEmpty (s : StructInfo) : outcome bool :=
  match fieldSize s with
  | [] => Aborts IndexOutOfRange
  | n :: _ => Returns (n =? 0)%N
  end.

Definition appendFields (s other : StructInfo) : outcome StructInfo :=
  e ← isEmpty other;
  Returns
    (mkStructInfo (arrayFlags s ++ arrayFlags other)
       (pointerFlags s ++ pointerFlags other)
       (unionFlags s ++ unionFlags other)
       (if (e : bool) then fieldSize s else fieldSize s ++ fieldSize other)
       (offsetMap s) (fieldOffset s)
       (fieldRealSize s ++ fieldRealSize other)
       (elementType s) (containers s)).

(** The loop of [appendFieldOffset] over [other.fieldOffset]. *)
Fixpoint rebaseOffsets (base : N) (others : list N) (acc : list N) : list N :=
  match others with
  | [] => acc
  | i :: rest =>
      if (i =? 0)%N then rebaseOffsets base rest acc
      else rebaseOffsets base rest (acc ++ [wrap32 (i + base)])
  end.

(** [fieldOffset.back()] on an empty vector is undefined. *)
Definition appendFieldOffset (s other : StructInfo) : outcome StructInfo :=
  match last (fieldOffset s) with
  | None => Aborts IndexOutOfRange
  | Some base =>
      Returns
        (mkStructInfo (arrayFlags s) (pointerFlags s) (unionFlags s)
           (fieldSize s) (offsetMap s)
           (rebaseOffsets base (fieldOffset other) (fieldOffset s))
           (fieldRealSize s) (elementType s) (containers s))
  end.

Definition getOffset (s : StructInfo) (off : nat) : option N :=
  offsetMap s !! off.

(** [getContainer] on the member [containers]; [None] is the null result. *)
Definition getContainer (s : StructInfo) (st : StructType) (offset : N)
  : outcome (option StructType) :=
  if st_isOpaque st then Aborts (AssertionFailed "!st->isOpaque()")
  else if bool_decide ((st_addr st, offset) ∈ containers s)
       then Returns (Some st)
       else Returns None.

(** ** Report helpers *)

(** [ICmpInst::getPredicate()]: the ten integer predicates, and the rest of
    [CmpInst::Predicate]. *)
Inductive Predicate : Type :=
| ICMP_EQ | ICMP_NE
| ICMP_UGT | ICMP_UGE | ICMP_ULT | ICMP_ULE
| ICMP_SGT | ICMP_SGE | ICMP_SLT | ICMP_SLE
| OTHER_PREDICATE.

(** [dumpPred]: the text handed to [RES_REPORT]. *)
Definition dumpPred (Pred : Predicate) (branchTaken : N) : string :=
  match Pred with
  | ICMP_SLT | ICMP_ULT =>
      if (branchTaken =? 0)%N then " [<] "
      else if (branchTaken =? 1)%N then " [>=] "
      else " [<]* "
  | ICMP_SGT | ICMP_UGT =>
      if (branchTaken =? 0)%N then " [>] "
      else if (branchTaken =? 1)%N then " [<=] "
      else " [>]* "
  | ICMP_ULE | ICMP_SLE =>
      if (branchTaken =? 0)%N then " [<=] "
      else if (branchTaken =? 1)%N then " [>] "
      else " [<=]* "
  | ICMP_SGE | ICMP_UGE =>
      if (branchTaken =? 0)%N then " [>=] "
      else if (branchTaken =? 1)%N then " [<] "
      else " [>=]* "
  | ICMP_EQ =>
      if (branchTaken =? 0)%N then " [==] "
      else if (branchTaken =? 1)%N then " [!=] "
      else " [==]* "
  | ICMP_NE =>
      if (branchTaken =? 0)%N then " [!=] "
      else if (branchTaken =? 1)%N then " [==] "
      else " [!=]* "
  | OTHER_PREDICATE => ""
  end.

Section Report.

(** [getScopeName] comes from another header, and [Value::print] from
    LLVM: both are taken as given. *)
Variable getScopeName : StructType -> N -> string.
Variable printValue : Value -> string.

(** [dumpCmpSrc]: the text reported up to the point where the call ends,
    and how it ends. *)
Definition dumpCmpSrc (V : Value) : string * outcome unit :=
  match V with
  | GetElementPtrInst M pointerOperandType operands =>
      match pointerOperandType with
      | PointerTy baseType =>
          match baseType with
          | StructTy stType =>
              let structName := getScopeName stType M in
              match operands !! 2%nat with
              | None => ("| ", Aborts (AssertionFailed "getOperand"))
              | Some (ConstantInt offset) =>
                  ("| " +:+ "<" +:+ structName +:+ ", " +:+ pretty offset
                     +:+ ">" +:+ " |",
                   Returns ())
              | Some _ =>
                  ("| ", Aborts (AssertionFailed "GEP's index is not constant"))
              end
          | _ => ("| ", Aborts (AssertionFailed "stType != nullptr"))
          end
      | _ => ("| ", Aborts (AssertionFailed "ptrType != nullptr"))
      end
  | ConstantInt num =>
      ("| " +:+ "<C, " +:+ pretty num +:+ ">" +:+ " |", Returns ())
  | ConstantPointerNull => ("| " +:+ "<C, null>" +:+ " |", Returns ())
  | CallInst F args =>
      match F with
      | Some f =>
          if fn_isIntrinsic f then
            ("| " +:+ "<Intrinsic, " +:+ fn_name f +:+ ">" +:+ " |", Returns ())
          else if String.eqb (fn_name f) "" then
            ("| " +:+ "<CallInst, " +:+ printValue V +:+ ">" +:+ " |", Returns ())
          else
            ("| " +:+ "<CallInst, " +:+ fn_name f +:+ ">" +:+ " |", Returns ())
      | None =>
          ("| " +:+ "<CallInst, " +:+ printValue V +:+ ">" +:+ " |", Returns ())
      end
  | Argument _ => ("| " +:+ "<Arg, " +:+ printValue V +:+ ">" +:+ " |", Returns ())
  | BitCastInst _ =>
      ("| " +:+ "<BitCast, " +:+ printValue V +:+ ">" +:+ " |", Returns ())
  | _ => ("| " +:+ "<Unknown, " +:+ printValue V +:+ ">" +:+ " |", Returns ())
  end.

End Report.

(** ** Element types *)

(** [elementType[field].insert(type)]: the entry is created empty when the
    field has none. *)
Definition addElementType (s : StructInfo) (field type : N) : StructInfo :=
  mkStructInfo (arrayFlags s) (pointerFlags s) (unionFlags s) (fieldSize s)
    (offsetMap s) (fieldOffset s) (fieldRealSize s)
    (<[field := {[type]} ∪ default ∅ (elementType s !! field)]> (elementType s))
    (containers s).

(** [getElementType]: the set of the field, or an empty set. *)
Definition getElementType (s : StructInfo) (field : N) : gset N :=
  default ∅ (elementType s !! field).

(** [appendElementType]: every entry of [other] is merged into the entry
    [item.first + base], with [base] the number of size entries of [s] as
    an [unsigned]. *)
Definition appendElementType (s other : StructInfo) : StructInfo :=
  let base := wrap32 (N.of_nat (length (fieldSize s))) in
  mkStructInfo (arrayFlags s) (pointerFlags s) (unionFlags s) (fieldSize s)
    (offsetMap s) (fieldOffset s) (fieldRealSize s)
    (map_fold
       (λ field types acc,
          <[wrap32 (field + base)
            := types ∪ default ∅ (acc !! wrap32 (field + base))]> acc)
       (elementType s) (elementType other))
    (containers s).

(** ** The largest struct *)

(** The static members [maxStruct] and [maxStructSize]. *)
Record MaxStruct : Type := mkMaxStruct {
  maxStruct : N;
  maxStructSize : N
}.

Definition updateMaxStruct (g : MaxStruct) (st : N) (structSize : N)
  : MaxStruct :=
  if (maxStructSize g <? structSize)%N then mkMaxStruct st structSize else g.

Definition getMaxStructSize (g : MaxStruct) : N := maxStructSize g.

(** ** The simplified report *)

Definition newline : string := String (Ascii.ascii_of_nat 10) "".

(** [dumpSimplified]: the lines written to [outs()]; only the size of
    [allocaInst] is looked at.  [leakInfo] is an [unordered_map], so the
    order of the lines is not fixed by the code, and the properties below
    are stated up to it. *)
Definition dumpSimplified (name : string) (allocaInst : gset N)
    (leakInfo : gmap N (gmap N SiteInfo)) : list string :=
  if decide (size allocaInst = 0%nat) then []
  else (λ leak, name +:+ " " +:+ pretty leak.1 +:+ newline)
         <$> map_to_list leakInfo.

(** ** Rendering one check *)

Section CheckReport.

Variable getScopeName : StructType -> N -> string.
Variable printValue : Value -> string.



End CheckReport.

(** ** The Layout Cache and the Embedding Resolver *)

(** A declared field as the front end and the target's layout rules give
    it: a single expanded field with its flags, byte offset and real size,
    or an aggregate embedded by value, given by the address of its type,
    the declared fields of that type and the byte offset of the field.  A
    declaration is a finite tree: an aggregate cannot contain itself by
    value. *)
Inductive DeclField : Type :=
| PlainField (isArray isPointer isUnion : bool) (byteOffset realSize : N)
| EmbeddedField (embedded : N) (declared : list DeclField) (byteOffset : N).

(** The process-wide state of the analyzer: the layout cache
    [structInfoMap], keyed by the address of the type, and the largest
    struct seen. *)
Record Layouts : Type := mkLayouts {
  structInfoMap : gmap N StructInfo;
  largest : MaxStruct
}.

(** A loop over a list that threads its state and stops at the first
    step that does not return. *)
Definition forEach {X A : Type} (step : X → A → outcome A)
  : list X → A → outcome A :=
  fix go (l : list X) (a : A) : outcome A :=
    match l with
    | [] => Returns a
    | x :: rest => a' ← step x a; go rest a'
    end.

(** Modelled from the spec: [StructAnalyzer::computeStructInfo], declared
    in StructAnalyzer.h (if the type has been calculated before, return
    its [StructInfo]; otherwise calculate it) with its body in
    StructAnalyzer.cpp, not among the sources.  Following the Layout
    Cache: the memoized layout is returned if present; otherwise the
    layout is computed by [compute], the flattening of the declared fields
    of the type, starting from a default-constructed [StructInfo]; the
    computed layout is stored in the cache, and the largest-struct record
    is updated with its expanded-field count. *)
Definition computeStructInfoWith
    (compute : StructInfo * Layouts → outcome (StructInfo * Layouts))
    (ty : N) (ls : Layouts) : outcome (StructInfo * Layouts) :=
  match structInfoMap ls !! ty with
  | Some stInfo => Returns (stInfo, ls)
  | None =>
      r ← compute (emptyStructInfo, ls);
      Returns
        (r.1,
         mkLayouts (<[ty := r.1]> (structInfoMap r.2))
           (updateMaxStruct (largest r.2) ty
              (N.of_nat (getExpandedSize r.1))))
  end.

(** Modelled from the spec: the size entry of the expanded field at index
    [field] is set to [size], so that [fieldSize[i]] is the number of
    fields of the embedded struct that begins at [i], as the comment above
    [class StructInfo] has it; no member among the sources does this.  An
    index past the end of [fieldSize] sets nothing. *)
Definition setFieldSize (s : StructInfo) (field : nat) (size : N)
  : StructInfo :=
  mkStructInfo (arrayFlags s) (pointerFlags s) (unionFlags s)
    (<[field := size]> (fieldSize s))
    (offsetMap s) (fieldOffset s) (fieldRealSize s) (elementType s)
    (containers s).

(** Modelled from the spec: one pass of the loop over the declared fields in
    [StructAnalyzer::addStructInfo], whose body is in StructAnalyzer.cpp and
    not among the sources; only the [StructInfo] operations it calls are.
    Following the Embedding Resolver's steps: declared fields are taken in
    order; [offsetMap] records the expanded index at which the field
    begins; the field's byte offset is recorded; a plain field is one
    expanded field of size 1; for an embedded aggregate the layout is
    obtained from the cache or computed, recursively, and spliced in with
    [appendFields] and [appendFieldOffset], the size entry of the embedding
    field is set to the expanded-field count of the embedded layout, and
    the embedded type gains [(parent, byteOffset)] in its container
    set. *)
Fixpoint flattenField (parent : N) (f : DeclField)
    (acc : StructInfo * Layouts) {struct f}
  : outcome (StructInfo * Layouts) :=
  let numField := getExpandedSize acc.1 in
  let stInfo := addOffsetMap acc.1 (N.of_nat numField) in
  match f with
  | PlainField isArray isPointer isUnion byteOffset realSize =>
      Returns
        (addRealSize
           (addField (addFieldOffset stInfo byteOffset) 1
              isArray isPointer isUnion) realSize,
         acc.2)
  | EmbeddedField embedded declared byteOffset =>
      sub ← computeStructInfoWith (forEach (flattenField embedded) declared)
               embedded acc.2;
      s1 ← appendFields (addFieldOffset stInfo byteOffset) sub.1;
      s2 ← appendFieldOffset s1 sub.1;
      Returns
        (setFieldSize s2 numField (N.of_nat (getExpandedSize sub.1)),
         mkLayouts
           (<[embedded := addContainer sub.1 parent byteOffset]>
              (structInfoMap sub.2))
           (largest sub.2))
  end.

(** Modelled from the spec: the same loop, over all declared fields of
    [parent] in declaration order. *)
Definition flattenFields (parent : N) (fields : list DeclField)
    (acc : StructInfo * Layouts) : outcome (StructInfo * Layouts) :=
  forEach (flattenField parent) fields acc.


(** * Vocabulary of the statements *)

(** ** Comparison classes of the report *)

(** The six classes, what each means on integers, its negation, and the
    class a predicate belongs to. *)
Inductive CmpOp : Type := OpLt | OpGt | OpLe | OpGe | OpEq | OpNe.

Definition opText (c : CmpOp) : string :=
  match c with
  | OpLt => "<" | OpGt => ">" | OpLe => "<=" | OpGe => ">="
  | OpEq => "==" | OpNe => "!="
  end.

Definition evalOp (c : CmpOp) (a b : Z) : bool :=
  match c with
  | OpLt => a <? b | OpGt => b <? a | OpLe => a <=? b | OpGe => b <=? a
  | OpEq => a =? b | OpNe => negb (a =? b)
  end.

Definition negateOp (c : CmpOp) : CmpOp :=
  match c with
  | OpLt => OpGe | OpGt => OpLe | OpLe => OpGt | OpGe => OpLt
  | OpEq => OpNe | OpNe => OpEq
  end.

Definition classOf (Pred : Predicate) : option CmpOp :=
  match Pred with
  | ICMP_SLT | ICMP_ULT => Some OpLt
  | ICMP_SGT | ICMP_UGT => Some OpGt
  | ICMP_SLE | ICMP_ULE => Some OpLe
  | ICMP_SGE | ICMP_UGE => Some OpGe
  | ICMP_EQ => Some OpEq
  | ICMP_NE => Some OpNe
  | OTHER_PREDICATE => None
  end.

(** ** Allocation sites *)

(** The name of each bucket, by its exponent. *)
Definition sizeClassName (i : Z) : string :=
  if i =? 12 then "kmalloc-8k"
  else if i =? 11 then "kmalloc-4k"
  else if i =? 10 then "kmalloc-2k"
  else if i =? 9 then "kmalloc-1k"
  else "kmalloc-" +:+ pretty (Z.to_N (2 ^ i)).

Definition isGenericSite (CI : CallSite) : Prop :=
  ∃ f, cs_calledFunction CI = Some f ∧ fn_name f ∈ generic_alloc.

Definition isSpecificSite (CI : CallSite) : Prop :=
  ∃ f, cs_calledFunction CI = Some f ∧ fn_name f ∈ specific_alloc.

(** What the dedicated-cache trace gives for one site: a recovered name, or
    none. *)
Definition dedicatedName (CI : CallSite) : outcome (option string) :=
  r ← siteStep CI false; Returns r.2.

(** A name argument on which the LLVM accessors of the trace are within
    their contracts: a constant global that is the base of a constant
    address has an initializer, and character data is a C string. *)
Definition readableName (arg : Value) : Prop :=
  match arg with
  | ConstantExpr true [] => False
  | ConstantExpr true (GlobalVariable true None _ :: _) => False
  | ConstantExpr true
      (GlobalVariable true (Some (ConstantDataSequential None)) _ :: _) => False
  | _ => True
  end.

(** A user of the cache global whose stored call, if any, is a direct call
    and, if it is a creation call, has a readable first argument. *)
Definition directUser (u : Value) : Prop :=
  match u with
  | StoreInst (CallInst callee args) =>
      ∃ f, callee = Some f
           ∧ (contains "kmem_cache_create" (fn_name f) = true →
              ∃ arg rest, args = arg :: rest ∧ readableName arg)
  | _ => True
  end.

(** A site whose callee is known and has a first parameter, that stands in
    its parent block, and whose cache global, if its producer loads one,
    has direct users only. *)
Definition directSite (CI : CallSite) : Prop :=
  (∃ f, cs_calledFunction CI = Some f ∧ fn_args f ≠ [])
  ∧ cs_addr CI ∈ (cs_parent CI).*1
  ∧ ∀ c i us,
      getProducerOfArgument0 CI = Returns (Some (LoadInst (GlobalVariable c i us))) →
      Forall directUser us.

(** ** Field-building sequences *)

Inductive BuildOp : Type :=
| OpAddField (newFieldSize : N) (isArray isPointer isUnion : bool)
| OpAddRealSize (size : N)
| OpAppendFields (other : StructInfo).

Definition runOp (s : StructInfo) (op : BuildOp) : outcome StructInfo :=
  match op with
  | OpAddField n a p u => Returns (addField s n a p u)
  | OpAddRealSize n => Returns (addRealSize s n)
  | OpAppendFields other => appendFields s other
  end.

Fixpoint runOps (s : StructInfo) (ops : list BuildOp) : outcome StructInfo :=
  match ops with
  | [] => Returns s
  | op :: rest => s' ← runOp s op; runOps s' rest
  end.

(** The layouts a sequence splices in, and how often it adds a field and a
    real size. *)
Fixpoint spliced (ops : list BuildOp) : list StructInfo :=
  match ops with
  | [] => []
  | OpAppendFields other :: rest => other :: spliced rest
  | _ :: rest => spliced rest
  end.

Fixpoint countAddField (ops : list BuildOp) : nat :=
  match ops with
  | [] => 0
  | OpAddField _ _ _ _ :: rest => S (countAddField rest)
  | _ :: rest => countAddField rest
  end.

Fixpoint countAddRealSize (ops : list BuildOp) : nat :=
  match ops with
  | [] => 0
  | OpAddRealSize _ :: rest => S (countAddRealSize rest)
  | _ :: rest => countAddRealSize rest
  end.

(** The three flag vectors agree in length. *)
Definition flagsAligned (s : StructInfo) : Prop :=
  length (pointerFlags s) = getExpandedSize s
  ∧ length (unionFlags s) = getExpandedSize s.

(** What [appendFields] takes from the size vector of a spliced layout. *)
Definition splicedSizes (other : StructInfo) : nat :=
  match isEmpty other with
  | Returns false => length (fieldSize other)
  | _ => 0
  end.

(** ** Declared fields *)











(** The byte offset the splice gives to a field at relative offset [r] of
    a layout embedded at [base]: their sum as an [unsigned]. *)
Definition rebased (base r : N) : N := wrap32 (r + base).

(** No layout cached yet, and no struct seen. *)
Definition noLayouts : Layouts := mkLayouts ∅ (mkMaxStruct 0 0).


(** The layout and the state that flattening leaves, when it runs
    through. *)
Definition layoutOf (parent : N) (fields : list DeclField) (ls : Layouts)
  : StructInfo :=
  match flattenFields parent fields (emptyStructInfo, ls) with
  | Returns acc => acc.1
  | Aborts _ => emptyStructInfo
  end.

Definition cacheAfter (parent : N) (fields : list DeclField) (ls : Layouts)
  : gmap N StructInfo :=
  match flattenFields parent fields (emptyStructInfo, ls) with
  | Returns acc => structInfoMap acc.2
  | Aborts _ => structInfoMap ls
  end.




(** ** Indirections of a type *)

Inductive Indirection : Type := ViaPointer | ViaArray.

Fixpoint wrapType (ws : list Indirection) (t : LType) : LType :=
  match ws with
  | [] => t
  | ViaPointer :: rest => PointerTy (wrapType rest t)
  | ViaArray :: rest => ArrayTy (wrapType rest t)
  end.

(** ** Sequences of calls *)

(** [addElementType] for every pair of a field and a type in turn. *)
Definition addElementTypes (s : StructInfo) (adds : list (N * N))
  : StructInfo :=
  foldl (λ acc x, addElementType acc x.1 x.2) s adds.

(** [updateMaxStruct] for every finalized layout in turn. *)
Definition updateAll (g : MaxStruct) (sts : list (N * N)) : MaxStruct :=
  foldl (λ acc x, updateMaxStruct acc x.1 x.2) g sts.

(** [addLeakSourceInfo] for every entry in turn, as long as it returns. *)
Fixpoint recordAll (leakInfo : gmap N (gmap N SiteInfo))
    (entries : list (N * N * SiteInfo))
  : outcome (gmap N (gmap N SiteInfo)) :=
  match entries with
  | [] => Returns leakInfo
  | e :: rest =>
      l ← result (addLeakSourceInfo leakInfo e.1.1 e.1.2 e.2);
      recordAll l rest
  end.

(** ** Decimal strings *)

Definition isDigit (c : Ascii.ascii) : bool :=
  (48 <=? Ascii.nat_of_ascii c)%nat && (Ascii.nat_of_ascii c <=? 57)%nat.

Fixpoint digitsOnly (s : string) : bool :=
  match s with
  | EmptyString => true
  | String c rest => isDigit c && digitsOnly rest
  end.

(** ** Operands of a check *)


(** ** Sample inputs *)

Module Samples.

Definition sample_struct : StructType :=
  mkStructType 64 "struct.list_head" false.


Definition sample_site : SiteInfo := mkSiteInfo 1 64 4096 64 4104 ∅.

Definition other_site : SiteInfo := mkSiteInfo 2 64 4096 64 4104 ∅.

Definition sample_registry : gmap N (gmap N SiteInfo) :=
  <[8%N := <[4200%N := sample_site]> ∅]> ∅.

Definition kmalloc_fn : Function :=
  mkFunction "kmalloc" [OtherTy; OtherTy] false.

(** A call [kmalloc(size, flags)] with a constant size, alone in its
    block. *)
Definition kmalloc_site : CallSite :=
  mkCallSite 500 (Some kmalloc_fn) (ConstantInt 3000)
    [(500%N, CallInst (Some kmalloc_fn) [ConstantInt 3000; ConstantInt 0])].

(** The cache descriptor type, the dedicated allocator and a cache created
    with a literal name and stored to a global. *)
Definition kmem_cache_st : StructType :=
  mkStructType 200 "struct.kmem_cache" false.

Definition kmem_cache_alloc_fn : Function :=
  mkFunction "kmem_cache_alloc" [PointerTy (StructTy kmem_cache_st); OtherTy]
    false.

Definition kmem_cache_create_fn : Function :=
  mkFunction "kmem_cache_create"
    [PointerTy OtherTy; OtherTy; OtherTy; OtherTy; PointerTy OtherTy] false.

Definition name_global : Value :=
  GlobalVariable true (Some (ConstantDataSequential (Some "my_cache"))) [].

Definition creation_call : Value :=
  CallInst (Some kmem_cache_create_fn)
    [ConstantExpr true [name_global; ConstantInt 0; ConstantInt 0];
     ConstantInt 64; ConstantInt 0; ConstantInt 0; ConstantPointerNull].

Definition cache_global : Value :=
  GlobalVariable false (Some ConstantPointerNull) [StoreInst creation_call].

(** [p = load cache_global; kmem_cache_alloc(p, flags)], the load just
    before the call in the same block. *)
Definition dedicated_site : CallSite :=
  mkCallSite 700 (Some kmem_cache_alloc_fn) (LoadInst cache_global)
    [(699%N, LoadInst cache_global);
     (700%N, CallInst (Some kmem_cache_alloc_fn)
               [LoadInst cache_global; ConstantInt 0])].

(** A call to a function of neither allocator class. *)
Definition vmalloc_site : CallSite :=
  mkCallSite 800 (Some (mkFunction "vmalloc" [OtherTy] false)) (ConstantInt 64)
    [(800%N, CallInst (Some (mkFunction "vmalloc" [OtherTy] false))
               [ConstantInt 64])].

(** [kmem_cache_alloc(cachep, flags)] where [cachep] is a parameter of the
    enclosing function and the call opens its block. *)
Definition leading_site : CallSite :=
  mkCallSite 900 (Some kmem_cache_alloc_fn) (Argument 0)
    [(900%N, CallInst (Some kmem_cache_alloc_fn) [Argument 0; ConstantInt 0]);
     (901%N, OtherInst)].

(** The call opens its block, and its operand 0 is a load that stands in
    another block. *)
Definition hoisted_load_site : CallSite :=
  mkCallSite 700 (Some kmem_cache_alloc_fn) (LoadInst cache_global)
    [(700%N, CallInst (Some kmem_cache_alloc_fn)
               [LoadInst cache_global; ConstantInt 0])].

(** The global that should hold the cache is only ever assigned the result
    of an indirect call: no creation call matches. *)
Definition indirect_cache_global : Value :=
  GlobalVariable false (Some ConstantPointerNull)
    [StoreInst (CallInst None [ConstantInt 64])].

Definition indirect_site : CallSite :=
  mkCallSite 700 (Some kmem_cache_alloc_fn) (LoadInst indirect_cache_global)
    [(699%N, LoadInst indirect_cache_global);
     (700%N, CallInst (Some kmem_cache_alloc_fn)
               [LoadInst indirect_cache_global; ConstantInt 0])].

(** A layout of one plain field, and the layout of an aggregate without
    fields: one expanded entry of size 0. *)
Definition one_field : StructInfo :=
  addRealSize (addField emptyStructInfo 1 false false false) 4.

Definition empty_aggregate : StructInfo :=
  addRealSize (addField emptyStructInfo 0 false false false) 0.

(** [struct B { int x; int y; }] embedded as the second field of
    [struct A { long n; struct B b; void *p; struct C c; }], where
    [struct C { struct B b; int z; }] embeds it once more. *)
Definition B_fields : list DeclField :=
  [PlainField false false false 0 4; PlainField false false false 4 4].



Definition B_layout : StructInfo := layoutOf 300 B_fields noLayouts.




(** [struct P { struct B first; struct B second; }]. *)
Definition P_fields : list DeclField :=
  [EmbeddedField 300 B_fields 0; EmbeddedField 300 B_fields 8].

(** [struct E {}] embedded as the only field of [struct F { struct E e; }]. *)
Definition F_fields : list DeclField := [EmbeddedField 330 [] 0].

(** [struct B] embedded at the last four bytes below 2^32. *)
Definition W_fields : list DeclField :=
  [EmbeddedField 300 B_fields 4294967292].

End Samples.
Import Samples.

Module MoreSamples.

(** A second cache, created under another name, and a site that allocates
    from it. *)
Definition other_cache_global : Value :=
  GlobalVariable false (Some ConstantPointerNull)
    [StoreInst
       (CallInst (Some kmem_cache_create_fn)
          [ConstantExpr true
             [GlobalVariable true
                (Some (ConstantDataSequential (Some "other_cache"))) [];
              ConstantInt 0; ConstantInt 0];
           ConstantInt 32; ConstantInt 0; ConstantInt 0;
           ConstantPointerNull])].

Definition other_dedicated_site : CallSite :=
  mkCallSite 750 (Some kmem_cache_alloc_fn) (LoadInst other_cache_global)
    [(749%N, LoadInst other_cache_global);
     (750%N, CallInst (Some kmem_cache_alloc_fn)
               [LoadInst other_cache_global; ConstantInt 0])].

End MoreSamples.
Import MoreSamples.

(** * Properties *)

(** ** The rendered comparison operator *)

Lemma negateOp_sound (c : CmpOp) (a b : Z) :
  evalOp (negateOp c) a b = negb (evalOp c a b).
Proof.
  destruct c; simpl; try rewrite negb_involutive; try reflexivity;
    rewrite ?Z.ltb_antisym, ?Z.leb_antisym, ?negb_involutive; reflexivity.
Qed.

Lemma negateOp_involutive (c : CmpOp) : negateOp (negateOp c) = c.
Proof. destruct c; reflexivity. Qed.

Lemma classOf_ICmp (Pred : Predicate) :
  Pred ≠ OTHER_PREDICATE → is_Some (classOf Pred).
Proof. destruct Pred; simpl; eauto; congruence. Qed.

(** C9: for a predicate of any of the six comparison classes, [dumpPred]
    renders the operator itself when only the true branch was taken
    (branchTaken 0), its negation when only the false branch was taken
    (branchTaken 1), and the operator followed by [*] for any other
    outcome (both branches). *)
Theorem dumpPred_narrows (Pred : Predicate) (c : CmpOp) :
  classOf Pred = Some c →
  dumpPred Pred 0 = " [" +:+ opText c +:+ "] "
  ∧ dumpPred Pred 1 = " [" +:+ opText (negateOp c) +:+ "] "
  ∧ ∀ b : N, b ≠ 0%N → b ≠ 1%N →
      dumpPred Pred b = " [" +:+ opText c +:+ "]* ".
Proof.
  intros Hc.
  destruct Pred; simpl in Hc; inversion Hc; subst; clear Hc;
    (split; [reflexivity | split; [reflexivity |]]);
    intros b H0 H1; unfold dumpPred;
    destruct (N.eqb_spec b 0); try contradiction;
    destruct (N.eqb_spec b 1); try contradiction; reflexivity.
Qed.

Lemma dumpPred_narrows_witness :
  dumpPred ICMP_SLT 0 = " [<] "
  ∧ dumpPred ICMP_SLT 1 = " [>=] "
  ∧ dumpPred ICMP_SLT 2 = " [<]* ".
Proof.
  destruct (dumpPred_narrows ICMP_SLT OpLt eq_refl) as (H0 & H1 & H2).
  split; [exact H0 | split; [exact H1 |]].
  apply H2; discriminate.
Defined.

(** ** The container query *)



(** ** Contract violations in [dumpCmpSrc] *)

(** C8: on a field access whose base operand type is not a pointer, or
    whose pointee is not a struct type, or whose operand 2 is not a
    constant integer, [dumpCmpSrc] ends in a failed assertion, having
    reported the opening bar only and no descriptor. *)
Theorem dumpCmpSrc_contract (getScopeName : StructType → N → string)
    (printValue : Value → string) (M : N) (ty : LType) (ops : list Value) :
  (∀ elt, ty ≠ PointerTy elt)
  ∨ (∃ elt, ty = PointerTy elt ∧ ∀ st, elt ≠ StructTy st)
  ∨ (∀ c, ops !! 2%nat ≠ Some (ConstantInt c)) →
  ∃ msg, dumpCmpSrc getScopeName printValue (GetElementPtrInst M ty ops)
         = ("| ", Aborts (AssertionFailed msg)).
Proof.
  intros [Hty | [(elt & -> & Helt) | Hidx]]; simpl.
  - destruct ty; try (eexists; reflexivity). exfalso; eapply Hty; reflexivity.
  - destruct elt; try (eexists; reflexivity). exfalso; eapply Helt; reflexivity.
  - destruct ty; try (eexists; reflexivity).
    destruct ty; try (eexists; reflexivity).
    destruct (ops !! 2%nat) as [v |] eqn:E; [| eexists; reflexivity].
    destruct v; try (eexists; reflexivity).
    exfalso; eapply Hidx; reflexivity.
Qed.

Lemma dumpCmpSrc_contract_witness :
  ∃ msg,
    dumpCmpSrc (λ st _, st_name st) (λ _, "")
      (GetElementPtrInst 1 (PointerTy (StructTy sample_struct))
         [Argument 0; ConstantInt 0; Argument 1])
    = ("| ", Aborts (AssertionFailed msg)).
Proof.
  apply dumpCmpSrc_contract. right; right. intros c. simpl. discriminate.
Defined.

(** ** The leak registry *)

Section Registry.

Implicit Types (leakInfo : gmap N (gmap N SiteInfo)) (offset V : N)
  (siteInfo : SiteInfo).

Lemma getSiteInfo_lookup leakInfo offset V :
  getSiteInfo leakInfo offset V = leakInfo !! offset ≫= (.!! V).
Proof.
  unfold getSiteInfo. destruct (leakInfo !! offset) as [LSI |]; simpl;
    [destruct (LSI !! V) |]; reflexivity.
Qed.

Lemma addLeakSourceInfo_present leakInfo offset V siteInfo :
  is_Some (getSiteInfo leakInfo offset V) →
  addLeakSourceInfo leakInfo offset V siteInfo
  = mkLogged ["Are we trying to update siteInfo?"]
             (Aborts (AssertionFailed "BUG?")).
Proof.
  unfold getSiteInfo, addLeakSourceInfo. intros [old Hold].
  destruct (leakInfo !! offset) as [LSI |]; [| discriminate].
  destruct (LSI !! V); [reflexivity | discriminate].
Qed.

Lemma addLeakSourceInfo_absent leakInfo offset V siteInfo :
  getSiteInfo leakInfo offset V = None →
  ∃ leakInfo',
    addLeakSourceInfo leakInfo offset V siteInfo
    = mkLogged [] (Returns leakInfo')
    ∧ getSiteInfo leakInfo' offset V = Some siteInfo
    ∧ ∀ offset' V', (offset', V') ≠ (offset, V) →
        getSiteInfo leakInfo' offset' V' = getSiteInfo leakInfo offset' V'.
Proof.
  rewrite getSiteInfo_lookup. unfold addLeakSourceInfo. intros Habs.
  destruct (leakInfo !! offset) as [LSI |] eqn:Hoff; simpl in Habs.
  - rewrite Habs. eexists. split; [reflexivity |].
    split; [| intros offset' V' Hne]; rewrite !getSiteInfo_lookup.
    + rewrite lookup_insert_eq. simpl. apply lookup_insert_eq.
    + destruct (decide (offset' = offset)) as [-> |].
      * rewrite lookup_insert_eq, Hoff. simpl.
        apply lookup_insert_ne. congruence.
      * rewrite lookup_insert_ne by done. reflexivity.
  - eexists. split; [reflexivity |].
    split; [| intros offset' V' Hne]; rewrite !getSiteInfo_lookup.
    + rewrite lookup_insert_eq. simpl. apply lookup_insert_eq.
    + destruct (decide (offset' = offset)) as [-> |].
      * rewrite lookup_insert_eq, Hoff. simpl.
        rewrite lookup_insert_ne by congruence. apply lookup_empty.
      * rewrite lookup_insert_ne by done. reflexivity.
Qed.

(** C2, as the code has it: when [(offset, V)] is already recorded,
    whatever its content, [addLeakSourceInfo] logs the warning and the
    assertion fails; when it is not, the record is stored, no warning is
    logged, [getSiteInfo offset V] retrieves it and every other key is
    left as it was. *)
Theorem addLeakSourceInfo_spec leakInfo offset V siteInfo :
  (is_Some (getSiteInfo leakInfo offset V) →
     warnings (addLeakSourceInfo leakInfo offset V siteInfo)
       = ["Are we trying to update siteInfo?"]
     ∧ result (addLeakSourceInfo leakInfo offset V siteInfo)
       = Aborts (AssertionFailed "BUG?"))
  ∧ (getSiteInfo leakInfo offset V = None →
     ∃ leakInfo',
       warnings (addLeakSourceInfo leakInfo offset V siteInfo) = []
       ∧ result (addLeakSourceInfo leakInfo offset V siteInfo)
         = Returns leakInfo'
       ∧ getSiteInfo leakInfo' offset V = Some siteInfo
       ∧ ∀ offset' V', (offset', V') ≠ (offset, V) →
           getSiteInfo leakInfo' offset' V'
           = getSiteInfo leakInfo offset' V').
Proof.
  split.
  - intros H. rewrite (addLeakSourceInfo_present _ _ _ _ H). done.
  - intros H.
    destruct (addLeakSourceInfo_absent _ _ _ siteInfo H) as (l' & E & G & O).
    exists l'. rewrite E. done.
Qed.

End Registry.

Lemma addLeakSourceInfo_spec_witness :
  result (addLeakSourceInfo sample_registry 8 4200 other_site)
    = Aborts (AssertionFailed "BUG?")
  ∧ ∃ leakInfo',
      result (addLeakSourceInfo sample_registry 8 4300 other_site)
        = Returns leakInfo'
      ∧ getSiteInfo leakInfo' 8 4300 = Some other_site.
Proof.
  split.
  - apply (proj1 (addLeakSourceInfo_spec sample_registry 8 4200 other_site)).
    vm_compute. eauto.
  - destruct (proj2 (addLeakSourceInfo_spec sample_registry 8 4300 other_site))
      as (l' & _ & R & G & _).
    + vm_compute. reflexivity.
    + exists l'. split; assumption.
Defined.

(** Re-recording a site with the very content it already has is not a
    no-op: the assertion fails. *)
Lemma addLeakSourceInfo_identical_aborts :
  getSiteInfo sample_registry 8 4200 = Some sample_site
  ∧ result (addLeakSourceInfo sample_registry 8 4200 sample_site)
    = Aborts (AssertionFailed "BUG?")
  ∧ result (addLeakSourceInfo sample_registry 8 4200 sample_site)
    ≠ Returns sample_registry.
Proof.
  split; [| split].
  - vm_compute. reflexivity.
  - vm_compute. reflexivity.
  - vm_compute. discriminate.
Qed.

(** ** The allocation classifier *)

Lemma generic_not_specific (n : string) :
  n ∈ generic_alloc → n ∉ specific_alloc.
Proof.
  intros Hg Hs.
  assert (n ∈ generic_alloc ∩ specific_alloc) as H
    by (apply elem_of_intersection; done).
  replace (generic_alloc ∩ specific_alloc) with (∅ : gset string) in H
    by (vm_compute; reflexivity).
  by apply not_elem_of_empty in H.
Qed.

Lemma double_of_u64_exact (a : Z) : a ≤ 2 ^ 53 → double_of_u64 a = a.
Proof.
  intros Ha. unfold double_of_u64.
  destruct (Z.ltb_spec a (2 ^ 53)) as [| Hge]; [reflexivity |].
  assert (a = 2 ^ 53) as -> by lia. vm_compute. reflexivity.
Qed.

(** Rounding does not pass the next power of two. *)
Lemma double_of_u64_le_pow2 (a n : Z) :
  53 ≤ n → 0 ≤ a ≤ 2 ^ n → double_of_u64 a ≤ 2 ^ n.
Proof.
  intros Hn [H0 Ha]. unfold double_of_u64.
  destruct (Z.ltb_spec a (2 ^ 53)) as [| Hge]; [lia |].
  assert (53 ≤ Z.log2 a) as HL by (apply Z.log2_le_pow2; lia).
  assert (Z.log2 a ≤ n) as HLn.
  { rewrite <- (Z.log2_pow2 n) by lia. apply Z.log2_le_mono. lia. }
  set (e := Z.log2 a - 52).
  assert (0 < 2 ^ e) as Hpe by (apply Z.pow_pos_nonneg; lia).
  assert (0 < 2 ^ (e - 1)) as Hhalf by (apply Z.pow_pos_nonneg; lia).
  assert (a / 2 ^ e * 2 ^ e ≤ a) as Hdown
    by (rewrite Z.mul_comm; apply Z.mul_div_le; lia).
  assert (a < 2 ^ 53 * 2 ^ e) as Hup.
  { rewrite <- Z.pow_add_r by lia.
    replace (53 + e) with (Z.succ (Z.log2 a)) by lia.
    apply Z.log2_spec. lia. }
  assert (a / 2 ^ e < 2 ^ 53) as Hq by (apply Z.div_lt_upper_bound; lia).
  assert ((a / 2 ^ e + 1) * 2 ^ e ≤ 2 ^ 53 * 2 ^ e) as Hnext by nia.
  destruct (Z.eq_dec (Z.log2 a) n) as [HLeq | HLne].
  - assert (a = 2 ^ n) as Ea.
    { pose proof (Z.log2_spec a) as Hspec. rewrite HLeq in Hspec. lia. }
    assert (a mod 2 ^ e = 0) as ->.
    { rewrite Ea. replace n with (52 + e) by lia.
      rewrite Z.pow_add_r by lia. apply Z.mod_mul. lia. }
    destruct (Z.ltb_spec 0 (2 ^ (e - 1))); lia.
  - assert (2 ^ 53 * 2 ^ e ≤ 2 ^ n).
    { rewrite <- Z.pow_add_r by lia. apply Z.pow_le_mono_r; lia. }
    repeat case_match; lia.
Qed.

(** The loop stops at the least exponent from [i] on whose power of two is
    not below the converted size, once the fuel reaches that far. *)
Lemma bucketLoop_spec (fuel : nat) (i a : Z) :
  0 ≤ i → double_of_u64 a ≤ 2 ^ (i + Z.of_nat fuel - 1) → (0 < fuel)%nat →
  ∃ j, bucketLoop fuel i a = Some j ∧ i ≤ j ≤ i + Z.of_nat fuel - 1
       ∧ double_of_u64 a ≤ 2 ^ j
       ∧ (j = i ∨ 2 ^ (j - 1) < double_of_u64 a).
Proof.
  revert i. induction fuel as [| fuel IH]; intros i Hi Hd Hf; [lia |].
  simpl. destruct (Z.ltb_spec (2 ^ i) (double_of_u64 a)) as [Hlt | Hge].
  - assert (0 < fuel)%nat as Hf'.
    { destruct fuel; [| lia].
      replace (i + Z.of_nat 1 - 1) with i in Hd by lia. lia. }
    destruct (IH (i + 1)) as (j & E & Hj & Hle & Hmin); [lia | | lia |].
    { replace (i + 1 + Z.of_nat fuel - 1) with (i + Z.of_nat (S fuel) - 1)
        by lia.
      exact Hd. }
    exists j. split; [exact E |]. split; [lia |]. split; [exact Hle |].
    destruct Hmin as [-> | Hmin]; right; [| exact Hmin].
    replace (i + 1 - 1) with i by lia. exact Hlt.
  - exists i. split; [reflexivity |]. split; [lia |].
    split; [lia | left; reflexivity].
Qed.

(** The fuel of [bucketExponent] is never used up on a [uint64_t] size. *)
Lemma bucketExponent_total (a : Z) :
  0 ≤ a < 2 ^ 64 → ∃ i, bucketExponent a = Some i ∧ 3 ≤ i ≤ 64.
Proof.
  intros Ha. assert (double_of_u64 a ≤ 2 ^ 64) as Hd
    by (apply double_of_u64_le_pow2; lia).
  destruct (bucketLoop_spec 64 3 a) as (j & E & Hj & Hle & Hmin);
    [lia | | lia |].
  { etrans; [exact Hd |]. apply Z.pow_le_mono_r; lia. }
  exists j. split; [exact E |]. split; [lia |].
  destruct Hmin as [-> | Hmin]; [lia |].
  destruct (Z.le_gt_cases j 64) as [| Hgt]; [done |].
  assert (2 ^ 64 ≤ 2 ^ (j - 1)) by (apply Z.pow_le_mono_r; lia). lia.
Qed.

Lemma genericCacheName_returns (a : Z) :
  0 ≤ a ≤ 2 ^ 63 →
  ∃ i, 3 ≤ i ≤ 63 ∧ double_of_u64 a ≤ 2 ^ i
       ∧ (i = 3 ∨ 2 ^ (i - 1) < double_of_u64 a)
       ∧ genericCacheName a = Returns (bucketName (2 ^ i)).
Proof.
  intros Ha. assert (double_of_u64 a ≤ 2 ^ 63) as Hd
    by (apply double_of_u64_le_pow2; lia).
  destruct (bucketLoop_spec 64 3 a) as (j & E & Hj & Hle & Hmin);
    [lia | | lia |].
  { etrans; [exact Hd |]. apply Z.pow_le_mono_r; lia. }
  assert (j ≤ 63) as Hj63.
  { destruct Hmin as [-> | Hmin]; [lia |].
    destruct (Z.le_gt_cases j 63) as [| Hgt]; [done |].
    assert (2 ^ 63 ≤ 2 ^ (j - 1)) by (apply Z.pow_le_mono_r; lia). lia. }
  exists j. split; [lia |]. split; [exact Hle |]. split; [exact Hmin |].
  unfold genericCacheName, bucketExponent. rewrite E.
  destruct (Z.leb_spec (2 ^ 64) (2 ^ j)) as [Hbig |]; [| reflexivity].
  assert (2 ^ j ≤ 2 ^ 63) by (apply Z.pow_le_mono_r; lia). lia.
Qed.

Lemma bucketName_pow2 (i : Z) : 0 ≤ i → bucketName (2 ^ i) = sizeClassName i.
Proof.
  intros Hi. unfold bucketName, sizeClassName.
  destruct (Z.le_gt_cases i 8) as [Hs | Hb].
  - assert (2 ^ i ≤ 2 ^ 8) by (apply Z.pow_le_mono_r; lia).
    repeat case_match; try reflexivity; lia.
  - destruct (Z.le_gt_cases 13 i) as [Hs' | Hb'].
    + assert (2 ^ 13 ≤ 2 ^ i) by (apply Z.pow_le_mono_r; lia).
      repeat case_match; try reflexivity; lia.
    + assert (i = 9 ∨ i = 10 ∨ i = 11 ∨ i = 12) as [-> | [-> | [-> | ->]]]
        by lia;
        reflexivity.
Qed.

Lemma siteStep_dedicated (CI : CallSite) (found : bool) (r : option string) :
  dedicatedName CI = Returns r →
  ∃ b, siteStep CI found = Returns (b, r)
       ∧ (b = true ↔ found = true ∨ isGenericSite CI).
Proof.
  unfold dedicatedName, siteStep, isGenericSite.
  destruct (cs_calledFunction CI) as [f |]; [| discriminate].
  destruct (bool_decide_reflect (fn_name f ∈ generic_alloc)) as [Hg | Hg];
    (destruct (bool_decide (fn_name f ∈ specific_alloc));
     [destruct (traceSpecific CI f) as [n | e]; [| discriminate] |]);
    simpl; intros [= <-]; eexists; (split; [reflexivity |]); simpl.
  all: try (split; [intros _; right; eauto | done]).
  all: split; [intros ->; by left | intros [-> | (g & [= <-] & Hin)]; done].
Qed.

Lemma dedicatedName_generic (CI : CallSite) :
  isGenericSite CI → dedicatedName CI = Returns None.
Proof.
  intros (f & Hf & Hg). unfold dedicatedName, siteStep. rewrite Hf.
  rewrite (bool_decide_eq_false_2 (fn_name f ∈ specific_alloc))
    by (by apply generic_not_specific).
  reflexivity.
Qed.

Lemma siteLoop_no_name (sites : list CallSite) (found : bool) :
  Forall (λ CI, dedicatedName CI = Returns None) sites →
  ∃ b, siteLoop sites found = Returns (inr b)
       ∧ (b = true ↔ found = true ∨ Exists isGenericSite sites).
Proof.
  intros HF. revert found.
  induction HF as [| CI rest HCI _ IH]; intros found; simpl.
  - exists found. split; [reflexivity |]. rewrite Exists_nil. tauto.
  - destruct (siteStep_dedicated CI found None HCI) as (b & -> & Hb). simpl.
    destruct (IH b) as (b' & -> & Hb'). exists b'. split; [reflexivity |].
    rewrite Exists_cons. tauto.
Qed.

Lemma siteLoop_first_name (pre post : list CallSite) (s : CallSite)
    (name : string) (found : bool) :
  Forall (λ CI, dedicatedName CI = Returns None) pre →
  dedicatedName s = Returns (Some name) →
  siteLoop (pre ++ s :: post) found = Returns (inl name).
Proof.
  intros HF Hs. revert found.
  induction HF as [| CI rest HCI _ IH]; intros found; simpl.
  - destruct (siteStep_dedicated s found _ Hs) as (b & -> & _). reflexivity.
  - destruct (siteStep_dedicated CI found None HCI) as (b & -> & _). simpl.
    apply IH.
Qed.

Lemma getAllocCache_generic_only (sites : list CallSite) (a : Z) :
  sites ≠ [] → Forall isGenericSite sites →
  getAllocCache sites a = genericCacheName a.
Proof.
  intros Hne HF. unfold getAllocCache.
  destruct (siteLoop_no_name sites false) as (b & -> & Hb).
  { eapply Forall_impl; [exact HF |]. apply dedicatedName_generic. }
  assert (b = true) as ->.
  { apply Hb. right. destruct HF; [done |]. by apply Exists_cons_hd. }
  reflexivity.
Qed.

(** C1, as the code has it: when every recorded site calls a generic
    allocator and the allocation size is at most 2^53 (where the double
    arithmetic of the search is exact), [getAllocCache] returns the name of
    the least power of two [2^i], [i >= 3], that is not below the size;
    that name is kmalloc-8k for 4096, kmalloc-4k for 2048, kmalloc-2k for
    1024, kmalloc-1k for 512, and kmalloc- followed by the decimal value of
    the power of two for every other.  So size 500 gives kmalloc-1k, size
    3000 gives kmalloc-8k and size 9000 gives kmalloc-16384. *)
Theorem getAllocCache_generic (sites : list CallSite) :
  sites ≠ [] → Forall isGenericSite sites →
  (∀ a, 0 ≤ a ≤ 2 ^ 53 →
     ∃ i, 3 ≤ i ∧ a ≤ 2 ^ i ∧ (i = 3 ∨ 2 ^ (i - 1) < a)
          ∧ getAllocCache sites a = Returns (sizeClassName i))
  ∧ getAllocCache sites 500 = Returns "kmalloc-1k"
  ∧ getAllocCache sites 3000 = Returns "kmalloc-8k"
  ∧ getAllocCache sites 9000 = Returns "kmalloc-16384".
Proof.
  intros Hne HF. split.
  - intros a Ha. rewrite (getAllocCache_generic_only sites a Hne HF).
    destruct (genericCacheName_returns a) as (i & Hi & Hle & Hmin & E).
    { split; [lia |]. etrans; [apply Ha |]. by apply Z.pow_le_mono_r. }
    rewrite double_of_u64_exact in Hle, Hmin by lia.
    exists i. rewrite E, bucketName_pow2 by lia. repeat split; (lia || done).
  - rewrite !(getAllocCache_generic_only sites _ Hne HF).
    repeat split; vm_compute; reflexivity.
Qed.

Lemma kmalloc_site_generic : isGenericSite kmalloc_site.
Proof.
  exists kmalloc_fn. split; [reflexivity |].
  apply (bool_decide_unpack _). vm_compute. exact I.
Defined.

Lemma getAllocCache_generic_witness :
  (∃ i, 3 ≤ i ∧ 3000 ≤ 2 ^ i ∧ (i = 3 ∨ 2 ^ (i - 1) < 3000)
        ∧ getAllocCache [kmalloc_site] 3000 = Returns (sizeClassName i))
  ∧ getAllocCache [kmalloc_site] 500 = Returns "kmalloc-1k"
  ∧ getAllocCache [kmalloc_site] 9000 = Returns "kmalloc-16384".
Proof.
  destruct (getAllocCache_generic [kmalloc_site]) as (Hall & H500 & _ & H9000).
  - discriminate.
  - constructor; [exact kmalloc_site_generic | constructor].
  - split; [| split; assumption].
    apply Hall. split; [lia |]. vm_compute. discriminate.
Defined.

(** Size 3000 falls in the bucket 4096, which the code names kmalloc-8k,
    not kmalloc-4k. *)
Lemma getAllocCache_3000_is_8k :
  Forall isGenericSite [kmalloc_site]
  ∧ getAllocCache [kmalloc_site] 3000 = Returns "kmalloc-8k"
  ∧ getAllocCache [kmalloc_site] 3000 ≠ Returns "kmalloc-4k".
Proof.
  split; [constructor; [exact kmalloc_site_generic | constructor] |].
  split; [vm_compute; reflexivity | vm_compute; discriminate].
Qed.

(** Beyond 2^53 the conversion to double rounds, and the bucket can fall
    below the size. *)
Example getAllocCache_rounding :
  getAllocCache [kmalloc_site] (2 ^ 53 + 1)
  = Returns ("kmalloc-" +:+ pretty (Z.to_N (2 ^ 53))).
Proof. vm_compute. reflexivity. Qed.

(** C6 fails here.  [kmalloc_site] calls a generic allocator, and no name
    can be recovered at [indirect_site]: the only value stored to its cache
    global is the result of an indirect call, so no creation call matches.
    With no dedicated name recoverable and a generic site recorded, the
    generic size-bucket name is due, kmalloc-128 for size 100, as for
    [kmalloc_site] alone; the scan of the users dereferences the null
    callee of the indirect call instead, after the generic site has been
    seen as well as before.  In the same way a name that is recoverable at
    a later site is not returned. *)
Theorem getAllocCache_fallback_aborts :
  isGenericSite kmalloc_site
  ∧ isSpecificSite indirect_site
  ∧ getAllocCache [kmalloc_site] 100 = Returns "kmalloc-128"
  ∧ getAllocCache [kmalloc_site; indirect_site] 100
    = Aborts NullDereference
  ∧ getAllocCache [dedicated_site] 100 = Returns "my_cache"
  ∧ getAllocCache [indirect_site; dedicated_site] 100
    = Aborts NullDereference.
Proof.
  split; [exact kmalloc_site_generic |]. split.
  - exists kmem_cache_alloc_fn. split; [reflexivity |].
    apply (bool_decide_unpack _). vm_compute. exact I.
  - repeat split; vm_compute; reflexivity.
Qed.

Lemma sizeClassName_named (i : Z) : sizeClassName i ≠ "".
Proof.
  unfold sizeClassName. repeat case_match; discriminate.
Qed.

(** X18: where every trace runs through, the precedence is as follows.
    [getAllocCache] returns the name recovered at the first site, in
    iteration order, whose dedicated-cache trace recovers one; when the
    traces recover no name at any site and some site calls a generic
    allocator, it returns, for a size up to 2^63, the name of the bucket
    [2^i] with [i] the least exponent from 3 on whose power of two is not
    below the size as a double (the size itself up to 2^53), which is
    never the empty string; when no site calls an allocator of either
    class, it returns the empty string. *)
Theorem getAllocCache_precedence :
  (∀ pre s post name a,
     Forall (λ CI, dedicatedName CI = Returns None) pre →
     dedicatedName s = Returns (Some name) →
     getAllocCache (pre ++ s :: post) a = Returns name)
  ∧ (∀ sites a,
       Forall (λ CI, dedicatedName CI = Returns None) sites →
       Exists isGenericSite sites →
       0 ≤ a ≤ 2 ^ 63 →
       ∃ i, 3 ≤ i ≤ 63
            ∧ double_of_u64 a ≤ 2 ^ i
            ∧ (i = 3 ∨ 2 ^ (i - 1) < double_of_u64 a)
            ∧ (a ≤ 2 ^ 53 → a ≤ 2 ^ i ∧ (i = 3 ∨ 2 ^ (i - 1) < a))
            ∧ getAllocCache sites a = Returns (sizeClassName i)
            ∧ getAllocCache sites a ≠ Returns "")
  ∧ (∀ sites a,
       Forall (λ CI, ∃ f, cs_calledFunction CI = Some f
                          ∧ (fn_name f ∉ generic_alloc)
                          ∧ (fn_name f ∉ specific_alloc)) sites →
       getAllocCache sites a = Returns "").
Proof.
  split; [| split].
  - intros pre s post name a Hpre Hs. unfold getAllocCache.
    rewrite (siteLoop_first_name pre post s name false Hpre Hs). reflexivity.
  - intros sites a Hnone Hgen Ha.
    assert (getAllocCache sites a = genericCacheName a) as E.
    { unfold getAllocCache.
      destruct (siteLoop_no_name sites false Hnone) as (b & -> & Hb).
      assert (b = true) as -> by (apply Hb; by right). reflexivity. }
    rewrite E.
    destruct (genericCacheName_returns a Ha) as (i & Hi & Hle & Hmin & Ei).
    exists i. rewrite Ei, bucketName_pow2 by lia.
    split; [exact Hi |]. split; [exact Hle |]. split; [exact Hmin |].
    split; [| split; [reflexivity |]].
    + intros Hexact. by rewrite double_of_u64_exact in Hle, Hmin by lia.
    + intros [= Hempty]. by apply (sizeClassName_named i).
  - intros sites a Hneither. unfold getAllocCache.
    destruct (siteLoop_no_name sites false) as (b & -> & Hb).
    { eapply Forall_impl; [exact Hneither |].
      intros CI (f & Hf & Hg & Hs). unfold dedicatedName, siteStep.
      rewrite Hf, (bool_decide_eq_false_2 _ Hs). reflexivity. }
    destruct b; [| reflexivity].
    destruct Hb as [Hb _]. destruct (Hb eq_refl) as [| Hex]; [done |].
    apply Exists_exists in Hex as (CI & Hin & g & Hg & Hgen).
    rewrite Forall_forall in Hneither.
    destruct (Hneither CI Hin) as (f & Hf & Hng & _). congruence.
Qed.

Lemma getAllocCache_precedence_witness :
  getAllocCache [kmalloc_site; dedicated_site; kmalloc_site] 3000
    = Returns "my_cache"
  ∧ (∃ i, 100 ≤ 2 ^ i ∧ (i = 3 ∨ 2 ^ (i - 1) < 100)
          ∧ getAllocCache [vmalloc_site; kmalloc_site] 100
            = Returns (sizeClassName i))
  ∧ getAllocCache [vmalloc_site] 100 = Returns "".
Proof.
  destruct getAllocCache_precedence as (Hfirst & Hgeneric & Hempty).
  split; [| split].
  - apply (Hfirst [kmalloc_site] dedicated_site [kmalloc_site]).
    + constructor; [vm_compute; reflexivity | constructor].
    + vm_compute. reflexivity.
  - destruct (Hgeneric [vmalloc_site; kmalloc_site] 100)
      as (i & _ & _ & _ & Hexact & Hname & _).
    + repeat constructor.
    + apply Exists_cons_tl, Exists_cons_hd. exact kmalloc_site_generic.
    + split; [lia |]. vm_compute. discriminate.
    + exists i. destruct Hexact as [Hle Hmin]; [vm_compute; discriminate |].
      split; [exact Hle |]. split; [exact Hmin | exact Hname].
  - apply Hempty. constructor; [| constructor].
    eexists. split; [reflexivity |].
    split; apply (bool_decide_unpack _); vm_compute; exact I.
Defined.

(** *** The producer of operand 0 *)

Lemma walkBlock_spec (pre post : list (N * Value)) (target : N) (self : Value)
    (prev : option Value) :
  target ∉ pre.*1 →
  walkBlock (pre ++ (target, self) :: post) target prev
  = Returns (match last pre with
             | Some p => Some p.2
             | None => prev
             end).
Proof.
  revert prev. induction pre as [| [a v] pre IH]; intros prev Hnotin; simpl.
  - rewrite N.eqb_refl. reflexivity.
  - simpl in Hnotin. apply not_elem_of_cons in Hnotin as [Hne Hnotin].
    destruct (N.eqb_spec a target) as [-> | _]; [done |].
    rewrite (IH (Some v) Hnotin). rewrite last_cons.
    destruct (last pre); reflexivity.
Qed.

Lemma specific_not_generic (n : string) :
  n ∈ specific_alloc → n ∉ generic_alloc.
Proof. intros Hs Hg. by apply (generic_not_specific n). Qed.

(** C7, as the code has it: when operand 0 of the allocation call is
    itself an instruction, the trace inspects that instruction, wherever
    it stands; otherwise it inspects the instruction immediately preceding
    the call in its block, and when the call is the first instruction of
    its block no instruction is found and the site is skipped without a
    name. *)
Theorem getProducerOfArgument0_spec (CI : CallSite) :
  (isInstruction (cs_operand0 CI) = true →
     getProducerOfArgument0 CI = Returns (Some (cs_operand0 CI)))
  ∧ (isInstruction (cs_operand0 CI) = false →
     ∀ pre self post,
       cs_parent CI = pre ++ (cs_addr CI, self) :: post →
       cs_addr CI ∉ pre.*1 →
       getProducerOfArgument0 CI = Returns (snd <$> last pre)
       ∧ (pre = [] →
          ∀ f found,
            cs_calledFunction CI = Some f →
            fn_name f ∈ specific_alloc →
            fn_args f ≠ [] →
            siteStep CI found = Returns (found, None))).
Proof.
  unfold getProducerOfArgument0. split; intros Hop; rewrite Hop; [done |].
  intros pre self post Hblk Hfresh. rewrite Hblk.
  rewrite (walkBlock_spec pre post _ self None Hfresh). split.
  - destruct (last pre); reflexivity.
  - intros -> f found Hf Hspec Hargs. unfold siteStep. rewrite Hf.
    rewrite (bool_decide_eq_false_2 _ (specific_not_generic _ Hspec)).
    rewrite (bool_decide_eq_true_2 _ Hspec).
    unfold traceSpecific. destruct (fn_args f) as [| ty tys]; [done |].
    unfold getProducerOfArgument0. rewrite Hop, Hblk. simpl.
    rewrite N.eqb_refl. reflexivity.
Qed.

Lemma getProducerOfArgument0_spec_witness :
  getProducerOfArgument0 dedicated_site = Returns (Some (LoadInst cache_global))
  ∧ getProducerOfArgument0 leading_site = Returns None
  ∧ siteStep leading_site false = Returns (false, None).
Proof.
  split.
  - apply (proj1 (getProducerOfArgument0_spec dedicated_site)). reflexivity.
  - destruct (proj2 (getProducerOfArgument0_spec leading_site) eq_refl
                [] (CallInst (Some kmem_cache_alloc_fn)
                      [Argument 0; ConstantInt 0])
                [(901%N, OtherInst)] eq_refl) as [Hnone Hskip].
    + simpl. apply not_elem_of_nil.
    + split; [exact Hnone |].
      apply (Hskip eq_refl kmem_cache_alloc_fn false eq_refl);
        [| simpl; discriminate].
      apply (bool_decide_unpack _). vm_compute. exact I.
Defined.

Lemma getProducerOfArgument0_first_in_block :
  (∃ self post, cs_parent hoisted_load_site
                = (cs_addr hoisted_load_site, self) :: post)
  ∧ getProducerOfArgument0 hoisted_load_site
    = Returns (Some (LoadInst cache_global))
  ∧ dedicatedName hoisted_load_site = Returns (Some "my_cache")
  ∧ getAllocCache [hoisted_load_site] 0 = Returns "my_cache".
Proof.
  split; [eexists _, _; reflexivity |].
  repeat split; vm_compute; reflexivity.
Qed.

(** *** Soft failures of the trace, and the one that is not *)

(** A user of the cache global that is no store, a store of something
    other than a call, a direct call to a function whose name does not
    contain kmem_cache_create, and a creation call whose first argument is
    no constant expression all let the scan go on to the next user. *)
Lemma traceUser_soft (u : Value) :
  (∀ v, u ≠ StoreInst v)
  ∨ (∃ v, u = StoreInst v ∧ ∀ callee args, v ≠ CallInst callee args)
  ∨ (∃ f args, u = StoreInst (CallInst (Some f) args)
               ∧ contains "kmem_cache_create" (fn_name f) = false)
  ∨ (∃ f arg args, u = StoreInst (CallInst (Some f) (arg :: args))
                   ∧ ∀ g ops, arg ≠ ConstantExpr g ops) →
  traceUser u = Returns None.
Proof.
  intros [H | [(v & -> & H) | [(f & args & -> & H) | (f & arg & args & -> & H)]]].
  - destruct u; try reflexivity. by destruct (H u).
  - destruct v; try reflexivity. by destruct (H calledFunction argOperands).
  - simpl. rewrite H. reflexivity.
  - simpl. destruct (contains _ _); [| reflexivity].
    destruct arg; try reflexivity.
    by destruct (H gepWithNoNotionalOverIndexing operands).
Qed.

(** The trace of one site gives up without a name when no producer
    instruction is found, when the producer is no load of a global
    variable, and when the descriptor type is not struct.kmem_cache. *)
Lemma traceSpecific_soft (CI : CallSite) (f : Function) (ty : LType)
    (tys : list LType) :
  fn_args f = ty :: tys →
  getProducerOfArgument0 CI = Returns None
  ∨ (∃ prev, getProducerOfArgument0 CI = Returns (Some prev)
             ∧ ∀ c i us, prev ≠ LoadInst (GlobalVariable c i us))
  ∨ (∃ prev, getProducerOfArgument0 CI = Returns (Some prev)
             ∧ ∀ st, getStructTypeOf ty = Some st →
                     st_name st ≠ "struct.kmem_cache") →
  traceSpecific CI f = Returns None.
Proof.
  intros Hargs H. unfold traceSpecific. rewrite Hargs.
  destruct H as [-> | [(prev & -> & H) | (prev & -> & H)]]; simpl.
  - reflexivity.
  - destruct (getStructTypeOf ty); [| reflexivity].
    destruct (isPointerTy ty); [| reflexivity].
    destruct prev as [| p | | | | | | | | | | |]; try reflexivity.
    destruct p; try reflexivity. by destruct (H isConstant initializer users).
  - destruct (getStructTypeOf ty) as [st |]; [| reflexivity].
    destruct (isPointerTy ty); [| reflexivity].
    destruct prev as [| p | | | | | | | | | | |]; try reflexivity.
    destruct p; try reflexivity.
    destruct (String.eqb_spec (st_name st) "struct.kmem_cache") as [E |];
      [| reflexivity].
    by destruct (H st eq_refl).
Qed.

(** With direct users only, the scan of the users runs through. *)
Lemma traceUser_direct (u : Value) :
  directUser u → ∃ r, traceUser u = Returns r.
Proof.
  destruct u as [| | v | | | | | | | | | |]; try (intros _; by eexists).
  destruct v as [| | | callee args | | | | | | | | |];
    try (intros _; by eexists).
  simpl. intros (f & -> & Hcreate).
  destruct (contains "kmem_cache_create" (fn_name f)); [| by eexists].
  destruct (Hcreate eq_refl) as (arg & rest & -> & Harg).
  destruct arg as [| | | | | | | g ops | | | | |]; try by eexists.
  destruct g; [| by eexists].
  destruct ops as [| base ops]; [done |].
  destruct base as [c init us | | | | | | | | | | | |]; try by eexists.
  destruct c; [| by eexists].
  destruct init as [init |]; [| done].
  destruct init as [| | | | | | | | cstr | | | |]; try by eexists.
  destruct cstr; [by eexists | done].
Qed.

Lemma scanUsers_direct (us : list Value) :
  Forall directUser us → ∃ r, scanUsers us = Returns r.
Proof.
  induction 1 as [| u us Hu _ [r IH]]; simpl; [by eexists |].
  destruct (traceUser_direct u Hu) as [[name |] ->]; simpl; eauto.
Qed.

Lemma walkBlock_returns (blk : list (N * Value)) (target : N)
    (prev : option Value) :
  target ∈ blk.*1 → ∃ r, walkBlock blk target prev = Returns r.
Proof.
  revert prev. induction blk as [| [a v] blk IH]; intros prev Hin; simpl.
  - by apply elem_of_nil in Hin.
  - destruct (N.eqb_spec a target) as [| Hne]; [by eexists |].
    apply IH. simpl in Hin. apply elem_of_cons in Hin as [|]; done.
Qed.

Lemma dedicatedName_direct (CI : CallSite) :
  directSite CI → ∃ r, dedicatedName CI = Returns r.
Proof.
  intros ((f & Hf & Hargs) & Hblk & Husers).
  unfold dedicatedName, siteStep. rewrite Hf.
  destruct (bool_decide (fn_name f ∈ specific_alloc)); [| by eexists].
  unfold traceSpecific. destruct (fn_args f) as [| ty tys]; [done |].
  assert (∃ r, getProducerOfArgument0 CI = Returns r) as [prev Hprev].
  { unfold getProducerOfArgument0.
    destruct (isInstruction (cs_operand0 CI)); [by eexists |].
    by apply walkBlock_returns. }
  rewrite Hprev in Husers |- *. simpl.
  destruct prev as [prev |]; [| by eexists].
  destruct (getStructTypeOf ty) as [st |]; [| by eexists].
  destruct (isPointerTy ty); [| by eexists].
  destruct prev as [| p | | | | | | | | | | |]; try by eexists.
  destruct p as [c i us | | | | | | | | | | | |]; try by eexists.
  destruct (String.eqb (st_name st) "struct.kmem_cache"); [| by eexists].
  destruct (scanUsers_direct us (Husers c i us eq_refl)) as [r ->].
  by eexists.
Qed.

(** On direct sites, and for a size up to 2^63, [getAllocCache] returns:
    every mismatch along the trace only ends the trace of that site. *)
Lemma getAllocCache_returns (sites : list CallSite) (a : Z) :
  Forall directSite sites → 0 ≤ a ≤ 2 ^ 63 →
  ∃ name, getAllocCache sites a = Returns name.
Proof.
  intros Hsites Ha. unfold getAllocCache.
  assert (∀ found, ∃ r, siteLoop sites found = Returns r) as Hloop.
  { induction Hsites as [| CI rest HCI _ IH]; intros found; simpl;
      [by eexists |].
    destruct (dedicatedName_direct CI HCI) as [r Hr].
    destruct (siteStep_dedicated CI found r Hr) as (b & -> & _). simpl.
    destruct r; [by eexists | apply IH]. }
  destruct (Hloop false) as [[name | [|]] ->]; simpl; try by eexists.
  destruct (genericCacheName_returns a Ha) as (i & _ & _ & _ & ->).
  by eexists.
Qed.

(** C5 fails here: with no matching creation call among the users of the
    global, the scan dereferences the null callee of the indirect call
    instead of going on to the next site. *)
Theorem getAllocCache_indirect_creation_aborts :
  getAllocCache [indirect_site; kmalloc_site] 100 = Aborts NullDereference.
Proof. vm_compute. reflexivity. Qed.

(** ** The per-field vectors *)

Lemma runOps_lengths (ops : list BuildOp) (s s' : StructInfo) :
  runOps s ops = Returns s' →
  length (arrayFlags s')
    = (length (arrayFlags s) + countAddField ops
       + sum_list_with (λ o, length (arrayFlags o)) (spliced ops))%nat
  ∧ length (pointerFlags s')
    = (length (pointerFlags s) + countAddField ops
       + sum_list_with (λ o, length (pointerFlags o)) (spliced ops))%nat
  ∧ length (unionFlags s')
    = (length (unionFlags s) + countAddField ops
       + sum_list_with (λ o, length (unionFlags o)) (spliced ops))%nat
  ∧ length (fieldSize s')
    = (length (fieldSize s) + countAddField ops
       + sum_list_with splicedSizes (spliced ops))%nat
  ∧ length (fieldRealSize s')
    = (length (fieldRealSize s) + countAddRealSize ops
       + sum_list_with (λ o, length (fieldRealSize o)) (spliced ops))%nat.
Proof.
  revert s. induction ops as [| op ops IH]; intros s; simpl.
  - intros [= <-]. repeat split; lia.
  - destruct op as [n a p u | n | other]; simpl.
    + intros H. destruct (IH _ H) as (Ha & Hp & Hu & Hs & Hr).
      simpl in *. rewrite length_app in Ha, Hp, Hu, Hs. simpl in *.
      repeat split; lia.
    + intros H. destruct (IH _ H) as (Ha & Hp & Hu & Hs & Hr).
      simpl in *. rewrite length_app in Hr. simpl in *.
      repeat split; lia.
    + unfold appendFields.
      destruct (isEmpty other) as [e | f] eqn:E; simpl; [| discriminate].
      intros H. destruct (IH _ H) as (Ha & Hp & Hu & Hs & Hr).
      assert (splicedSizes other
              = if e then 0%nat else length (fieldSize other)) as ->
        by (unfold splicedSizes; rewrite E; by destruct e).
      simpl in *. rewrite length_app in Ha, Hp, Hu, Hr.
      destruct e; [| rewrite length_app in Hs]; repeat split; lia.
Qed.

Lemma runOps_returns (ops : list BuildOp) (s : StructInfo) :
  Forall (λ o, fieldSize o ≠ []) (spliced ops) →
  ∃ s', runOps s ops = Returns s'.
Proof.
  revert s. induction ops as [| op ops IH]; intros s Hne; simpl.
  - eauto.
  - destruct op as [n a p u | n | other]; simpl in *; try (apply IH; done).
    apply Forall_cons in Hne as [Hother Hne].
    unfold appendFields, isEmpty.
    destruct (fieldSize other); [done |]. simpl. apply IH; done.
Qed.

Lemma sum_list_with_ext {A : Type} (f g : A → nat) (l : list A) :
  Forall (λ x, f x = g x) l → sum_list_with f l = sum_list_with g l.
Proof. induction 1 as [| x l Hx _ IH]; simpl; [done | lia]. Qed.

(** C3, as the code has it: after any sequence of [addField],
    [addRealSize] and [appendFields] in which every spliced layout has its
    flag vectors aligned and a size vector that is not empty, the call
    sequence runs through and [arrayFlags], [pointerFlags] and [unionFlags]
    have equal length, the expanded-field count.  [fieldSize] has that
    length too when no spliced layout [isEmpty]; [fieldRealSize] has it
    when the sequence has as many [addRealSize] as [addField] calls. *)
Theorem field_vectors_aligned (s : StructInfo) (ops : list BuildOp) :
  flagsAligned s →
  Forall (λ o, flagsAligned o ∧ fieldSize o ≠ []) (spliced ops) →
  ∃ s', runOps s ops = Returns s'
    ∧ flagsAligned s'
    ∧ (length (fieldSize s) = getExpandedSize s →
       Forall (λ o, length (fieldSize o) = getExpandedSize o
                    ∧ isEmpty o = Returns false) (spliced ops) →
       length (fieldSize s') = getExpandedSize s')
    ∧ (length (fieldRealSize s) = getExpandedSize s →
       Forall (λ o, length (fieldRealSize o) = getExpandedSize o)
         (spliced ops) →
       countAddRealSize ops = countAddField ops →
       length (fieldRealSize s') = getExpandedSize s').
Proof.
  intros [Hp Hu] Hothers.
  destruct (runOps_returns ops s) as [s' Hrun].
  { eapply Forall_impl; [exact Hothers |]. by intros o [_ ?]. }
  exists s'. split; [exact Hrun |].
  destruct (runOps_lengths ops s s' Hrun) as (La & Lp & Lu & Ls & Lr).
  unfold flagsAligned, getExpandedSize in *.
  assert (sum_list_with (λ o, length (pointerFlags o)) (spliced ops)
          = sum_list_with (λ o, length (arrayFlags o)) (spliced ops)) as Ep.
  { apply sum_list_with_ext. eapply Forall_impl; [exact Hothers |].
    by intros o [[? _] _]. }
  assert (sum_list_with (λ o, length (unionFlags o)) (spliced ops)
          = sum_list_with (λ o, length (arrayFlags o)) (spliced ops)) as Eu.
  { apply sum_list_with_ext. eapply Forall_impl; [exact Hothers |].
    by intros o [[_ ?] _]. }
  split; [split; lia |]. split.
  - intros Hs Hfull.
    assert (sum_list_with splicedSizes (spliced ops)
            = sum_list_with (λ o, length (arrayFlags o)) (spliced ops)) as Es.
    { apply sum_list_with_ext. eapply Forall_impl; [exact Hfull |].
      intros o [Hlen Hne]. unfold splicedSizes. rewrite Hne. exact Hlen. }
    lia.
  - intros Hr Hfull Hcount.
    assert (sum_list_with (λ o, length (fieldRealSize o)) (spliced ops)
            = sum_list_with (λ o, length (arrayFlags o)) (spliced ops)) as Er.
    { apply sum_list_with_ext. exact Hfull. }
    lia.
Qed.

Lemma field_vectors_aligned_witness :
  ∃ s', runOps emptyStructInfo
          [OpAddField 1 false true false; OpAddRealSize 8;
           OpAppendFields one_field] = Returns s'
        ∧ flagsAligned s'
        ∧ length (fieldSize s') = getExpandedSize s'
        ∧ length (fieldRealSize s') = getExpandedSize s'.
Proof.
  destruct (field_vectors_aligned emptyStructInfo
              [OpAddField 1 false true false; OpAddRealSize 8;
               OpAppendFields one_field])
    as (s' & Hrun & Hflags & Hsize & Hreal).
  - split; reflexivity.
  - constructor; [| constructor]. split; [split; reflexivity | discriminate].
  - exists s'. split; [exact Hrun |]. split; [exact Hflags |]. split.
    + apply Hsize; [reflexivity |].
      constructor; [| constructor]. split; reflexivity.
    + apply Hreal; [reflexivity | | reflexivity].
      constructor; [| constructor]. reflexivity.
Defined.

(** [addField] alone leaves [fieldRealSize] behind, and splicing a layout
    that [isEmpty], itself with five vectors of one length, leaves
    [fieldSize] behind. *)
Lemma field_vectors_misaligned :
  (∃ s', runOps emptyStructInfo [OpAddField 1 false false false] = Returns s'
         ∧ getExpandedSize s' = 1%nat
         ∧ length (fieldRealSize s') = 0%nat
         ∧ length (fieldRealSize s') ≠ getExpandedSize s')
  ∧ (isEmpty empty_aggregate = Returns true
     ∧ length (fieldSize empty_aggregate) = getExpandedSize empty_aggregate
     ∧ length (fieldRealSize empty_aggregate) = getExpandedSize empty_aggregate
     ∧ flagsAligned empty_aggregate
     ∧ ∃ s', runOps one_field [OpAppendFields empty_aggregate] = Returns s'
             ∧ getExpandedSize s' = 2%nat
             ∧ length (fieldSize s') = 1%nat
             ∧ length (fieldSize s') ≠ getExpandedSize s').
Proof.
  split.
  - eexists. repeat split. discriminate.
  - repeat split. eexists. repeat split. discriminate.
Qed.

(** ** Splicing an embedded layout *)

Lemma rebaseOffsets_spec (base : N) (others acc : list N) :
  rebaseOffsets base others acc
  = acc ++ (rebased base <$> filter (λ i, i ≠ 0%N) others).
Proof.
  revert acc. induction others as [| i rest IH]; intros acc; simpl.
  - by rewrite app_nil_r.
  - rewrite filter_cons. destruct (N.eqb_spec i 0) as [-> | Hne].
    + rewrite decide_False by (intros H; by apply H). apply IH.
    + rewrite decide_True by done. rewrite IH, <- app_assoc. reflexivity.
Qed.


















(** *** Flattening runs through *)

















(** After a field that embeds an aggregate of two expanded fields, the
    next declared field begins at expanded index 2: [offsetMap] holds
    expanded indices, which are the declared ones only as long as no
    earlier field is an embedding.  The layout of [B] is computed at the
    first embedding and taken from the cache at the second; both
    embeddings are recorded as containers, and the size entry of each
    embedding field is the expanded-field count of [B]. *)
Example flatten_second_embedding :
  getOffset (layoutOf 420 P_fields noLayouts) 1 = Some 2%N
  ∧ fieldOffset (layoutOf 420 P_fields noLayouts) = [0; 4; 8; 12]%N
  ∧ fieldSize (layoutOf 420 P_fields noLayouts) = [2; 1; 2; 1]%N
  ∧ (containers <$> cacheAfter 420 P_fields noLayouts !! 300%N)
    = Some ({[ (420, 8); (420, 0) ]}%N : gset (N * N)).
Proof. repeat split; vm_compute; reflexivity. Qed.

(** Past the range of an [unsigned] the rebased offset wraps:
    [appendFieldOffset] adds in [unsigned] arithmetic. *)
Example flatten_embedded_wraps :
  fieldOffset (layoutOf 440 W_fields noLayouts) = [4294967292; 0]%N.
Proof. vm_compute. reflexivity. Qed.

(** An embedded aggregate without a declared field has no size entry, and
    [appendFields] asks [isEmpty] for [fieldSize[0]]. *)
Example flatten_fieldless_aborts :
  flattenFields 430 F_fields (emptyStructInfo, noLayouts)
  = Aborts IndexOutOfRange.
Proof. vm_compute. reflexivity. Qed.

(** * Further properties *)

(** ** Struct type behind indirections *)

(** X1: [getStructType] finds a struct type exactly behind a nest of
    pointers and arrays of any depth around it; a null type gives null. *)
Theorem getStructType_indirections (ty : LType) (st : StructType) :
  (getStructType (Some ty) = Some st
   ↔ ∃ ws, ty = wrapType ws (StructTy st))
  ∧ getStructType None = None.
Proof.
  split; [| reflexivity]. simpl. split.
  - induction ty as [st' | elt IH | elt IH |]; simpl; intros H.
    + injection H as ->. by exists [].
    + destruct (IH H) as [ws ->]. by exists (ViaPointer :: ws).
    + destruct (IH H) as [ws ->]. by exists (ViaArray :: ws).
    + discriminate.
  - intros [ws ->]. induction ws as [| [] ws IH]; simpl; done.
Qed.

Lemma getStructType_indirections_witness :
  getStructType (Some (PointerTy (ArrayTy (StructTy sample_struct))))
  = Some sample_struct.
Proof.
  apply (proj1 (getStructType_indirections _ sample_struct)).
  by exists [ViaPointer; ViaArray].
Defined.

(** ** Element types *)

(** X2: element types only accumulate.  After any sequence of
    [addElementType] calls, [getElementType] of a field holds exactly the
    types it held before and the types added for that field; a field
    never written has the empty set. *)
Theorem addElementType_accumulates (s : StructInfo) (adds : list (N * N))
    (field type : N) :
  type ∈ getElementType (addElementTypes s adds) field
  ↔ type ∈ getElementType s field ∨ (field, type) ∈ adds.
Proof.
  revert s. induction adds as [| [f t] adds IH]; intros s; simpl.
  - rewrite elem_of_nil. tauto.
  - rewrite IH, elem_of_cons. unfold getElementType at 1, addElementType.
    simpl. destruct (decide (field = f)) as [-> |].
    + rewrite lookup_insert_eq. simpl. rewrite elem_of_union, elem_of_singleton.
      unfold getElementType. split.
      * intros [[-> | H] | H]; auto.
      * intros [H | [[= ->] | H]]; auto.
    + rewrite lookup_insert_ne by done. unfold getElementType. split.
      * intros [H | H]; auto.
      * intros [H | [[= -> ->] | H]]; auto. done.
Qed.

Lemma addElementType_accumulates_witness :
  7%N ∈ getElementType (addElementTypes one_field [(0, 7); (1, 9)]%N) 0
  ∧ 9%N ∉ getElementType (addElementTypes one_field [(0, 7); (1, 9)]%N) 0.
Proof.
  split.
  - apply (proj2 (addElementType_accumulates one_field _ 0 7)).
    right. apply elem_of_cons. by left.
  - intros Hin.
    apply (proj1 (addElementType_accumulates one_field _ 0 9)) in Hin.
    destruct Hin as [Hin | Hin]; revert Hin;
      apply (bool_decide_unpack _); vm_compute; exact I.
Defined.

Lemma appendElementType_fold (base : N) (mine theirs : gmap N (gset N)) :
  (∀ g, is_Some (theirs !! g) → (g + base < 2 ^ 32)%N) →
  ∀ k,
    default ∅
      (map_fold
         (λ field types acc,
            <[wrap32 (field + base)
              := types ∪ default ∅ (acc !! wrap32 (field + base))]> acc)
         mine theirs !! k)
    = default ∅ (mine !! k)
      ∪ (if decide (base ≤ k)%N then default ∅ (theirs !! (k - base)%N)
         else ∅).
Proof.
  apply (map_fold_weak_ind
           (λ acc m,
              (∀ g, is_Some (m !! g) → (g + base < 2 ^ 32)%N) →
              ∀ k, default ∅ (acc !! k)
                   = default ∅ (mine !! k)
                     ∪ (if decide (base ≤ k)%N
                        then default ∅ (m !! (k - base)%N) else ∅))).
  - intros _ k. rewrite lookup_empty. simpl.
    destruct (decide (base ≤ k)%N); by rewrite union_empty_r_L.
  - intros g types m acc Hfresh IH Hsmall k.
    assert (wrap32 (g + base) = (g + base)%N) as ->.
    { unfold wrap32. apply N.mod_small, Hsmall. rewrite lookup_insert_eq. eauto. }
    assert (∀ g', is_Some (m !! g') → (g' + base < 2 ^ 32)%N) as Hsmall'.
    { intros g' Hg'. apply Hsmall.
      destruct (decide (g' = g)) as [-> |];
        [rewrite lookup_insert_eq; eauto | by rewrite lookup_insert_ne]. }
    specialize (IH Hsmall').
    destruct (decide (k = g + base)%N) as [-> |].
    + rewrite lookup_insert_eq. simpl. rewrite IH.
      rewrite decide_True by lia.
      replace (g + base - base)%N with g by lia.
      rewrite lookup_insert_eq, Hfresh. simpl.
      rewrite union_empty_r_L.
      destruct (decide (base ≤ g + base)%N); [apply union_comm_L | lia].
    + rewrite lookup_insert_ne by done. rewrite IH.
      destruct (decide (base ≤ k)%N); [| done].
      rewrite lookup_insert_ne by lia. done.
Qed.

(** X3: [appendElementType s other] leaves the element types of the
    fields below [base] as they were and adds to field [base + g] the
    element types [other] has for its field [g], where [base] is the
    number of size entries of [s]; nothing is lost.  This holds as long as
    the shifted indices fit an [unsigned]. *)
Theorem appendElementType_shifts (s other : StructInfo) :
  (N.of_nat (length (fieldSize s)) < 2 ^ 32)%N →
  (∀ g, is_Some (elementType other !! g) →
        (g + N.of_nat (length (fieldSize s)) < 2 ^ 32)%N) →
  (∀ k, (k < N.of_nat (length (fieldSize s)))%N →
        getElementType (appendElementType s other) k = getElementType s k)
  ∧ (∀ g, getElementType (appendElementType s other)
            (N.of_nat (length (fieldSize s)) + g)
          = getElementType s (N.of_nat (length (fieldSize s)) + g)
            ∪ getElementType other g).
Proof.
  intros Hbase Hsmall. unfold getElementType, appendElementType. simpl.
  assert (wrap32 (N.of_nat (length (fieldSize s)))
          = N.of_nat (length (fieldSize s))) as ->
    by (by apply N.mod_small).
  split.
  - intros k Hk. rewrite appendElementType_fold by done.
    rewrite decide_False by lia. by rewrite union_empty_r_L.
  - intros g. rewrite appendElementType_fold by done.
    rewrite decide_True by lia. do 3 f_equal. lia.
Qed.

Lemma appendElementType_shifts_witness :
  getElementType
    (appendElementType (addElementType one_field 0 7)
       (addElementType emptyStructInfo 0 9)) 0
    = getElementType (addElementType one_field 0 7) 0
  ∧ getElementType
      (appendElementType (addElementType one_field 0 7)
         (addElementType emptyStructInfo 0 9)) (1 + 0)
    = getElementType (addElementType one_field 0 7) (1 + 0)
      ∪ getElementType (addElementType emptyStructInfo 0 9) 0.
Proof.
  destruct (appendElementType_shifts (addElementType one_field 0 7)
              (addElementType emptyStructInfo 0 9)) as [Hlow Hhigh].
  - vm_compute. reflexivity.
  - intros g [x Hx]. simpl in Hx.
    destruct (decide (g = 0%N)) as [-> |];
      [vm_compute; reflexivity |].
    rewrite lookup_insert_ne, lookup_empty in Hx by done. discriminate.
  - split; [apply Hlow; vm_compute; reflexivity | apply (Hhigh 0%N)].
Defined.

(** ** The largest struct *)

Lemma updateAll_bounds (g : MaxStruct) (sts : list (N * N)) :
  (maxStructSize g ≤ maxStructSize (updateAll g sts))%N
  ∧ ∀ x, x ∈ sts → (x.2 ≤ maxStructSize (updateAll g sts))%N.
Proof.
  unfold updateAll. revert g. induction sts as [| [st n] sts IH]; intros g.
  - simpl. split; [lia |]. intros x Hx. by apply elem_of_nil in Hx.
  - simpl. destruct (IH (updateMaxStruct g st n)) as [Hge Hall].
    assert (maxStructSize g ≤ maxStructSize (updateMaxStruct g st n)
            ∧ n ≤ maxStructSize (updateMaxStruct g st n))%N as [H1 H2].
    { unfold updateMaxStruct.
      destruct (N.ltb_spec (maxStructSize g) n); simpl; lia. }
    split; [lia |]. intros x Hx. apply elem_of_cons in Hx as [-> | Hx].
    + simpl. lia.
    + by apply Hall.
Qed.

(** X4: after [updateMaxStruct] has been called for a sequence of layouts,
    the recorded size is the largest of the initial one and all the sizes
    seen, and the recorded struct is the first in the sequence to reach
    that size; when no size exceeds the initial one, nothing changes. *)
Theorem updateMaxStruct_keeps_first_largest (g : MaxStruct)
    (sts : list (N * N)) :
  (∀ x, x ∈ sts → (x.2 ≤ getMaxStructSize (updateAll g sts))%N)
  ∧ (getMaxStructSize g ≤ getMaxStructSize (updateAll g sts))%N
  ∧ ((updateAll g sts = g ∧ ∀ x, x ∈ sts → (x.2 ≤ maxStructSize g)%N)
     ∨ ∃ before st n after,
         sts = before ++ (st, n) :: after
         ∧ updateAll g sts = mkMaxStruct st n
         ∧ (maxStructSize g < n)%N
         ∧ (∀ x, x ∈ before → (x.2 < n)%N)
         ∧ (∀ x, x ∈ after → (x.2 ≤ n)%N)).
Proof.
  destruct (updateAll_bounds g sts) as [Hge Hall].
  split; [exact Hall |]. split; [exact Hge |]. clear Hge Hall.
  induction sts as [| [st n] sts IH] using rev_ind.
  - left. split; [reflexivity |]. intros x Hx. by apply elem_of_nil in Hx.
  - destruct (updateAll_bounds g sts) as [Hg Hall].
    unfold updateAll in *. rewrite foldl_app. simpl.
    set (acc := foldl (λ acc x, updateMaxStruct acc x.1 x.2) g sts) in *.
    unfold updateMaxStruct.
    destruct (maxStructSize acc <? n)%N eqn:Hcmp.
    + apply N.ltb_lt in Hcmp. right. exists sts, st, n, [].
      split; [reflexivity |]. split; [reflexivity |].
      split; [lia |]. split.
      * intros x Hx. specialize (Hall x Hx). lia.
      * intros x Hx. by apply elem_of_nil in Hx.
    + apply N.ltb_ge in Hcmp.
      destruct IH
        as [[E Hle] | (before & st' & n' & after & -> & E & Hlt & Hb & Ha)].
      * left. split; [exact E |]. intros x Hx. rewrite E in Hcmp.
        apply elem_of_app in Hx as [Hx | Hx]; [by apply Hle |].
        apply list_elem_of_singleton in Hx as ->. exact Hcmp.
      * right. exists before, st', n', (after ++ [(st, n)]).
        rewrite <- app_assoc. split; [reflexivity |].
        rewrite E in Hcmp. simpl in Hcmp.
        split; [exact E |]. split; [exact Hlt |]. split; [exact Hb |].
        intros x Hx. apply elem_of_app in Hx as [Hx | Hx]; [by apply Ha |].
        apply list_elem_of_singleton in Hx as ->. exact Hcmp.
Qed.

Lemma updateMaxStruct_keeps_first_largest_witness :
  (64 ≤ getMaxStructSize
          (updateAll (mkMaxStruct 0 0) [(1, 16); (2, 64); (3, 64)]%N))%N.
Proof.
  apply (proj1 (updateMaxStruct_keeps_first_largest (mkMaxStruct 0 0)
                  [(1, 16); (2, 64); (3, 64)]%N) (2, 64)%N).
  apply elem_of_cons. right. apply elem_of_cons. by left.
Defined.

(** ** Containers *)

(** X5: once [addContainer st offset] has recorded a container,
    [getContainer] finds it, for a type that is not opaque; the answer for
    every other pair is what it was; and recording the same pair again
    changes nothing. *)
Theorem addContainer_getContainer (s : StructInfo) (st : StructType)
    (offset : N) :
  st_isOpaque st = false →
  getContainer (addContainer s (st_addr st) offset) st offset
    = Returns (Some st)
  ∧ (∀ st' offset', (st_addr st', offset') ≠ (st_addr st, offset) →
       getContainer (addContainer s (st_addr st) offset) st' offset'
       = getContainer s st' offset')
  ∧ addContainer (addContainer s (st_addr st) offset) (st_addr st) offset
    = addContainer s (st_addr st) offset.
Proof.
  intros Hop. unfold getContainer, addContainer. simpl. rewrite Hop.
  split; [| split].
  - rewrite bool_decide_eq_true_2; [done |].
    apply elem_of_union_l, elem_of_singleton. reflexivity.
  - intros st' offset' Hne. destruct (st_isOpaque st'); [done |].
    assert ((st_addr st', offset') ∈ ({[(st_addr st, offset)]} ∪ containers s)
            ↔ (st_addr st', offset') ∈ containers s) as Hiff.
    { rewrite elem_of_union, elem_of_singleton. tauto. }
    by rewrite (bool_decide_ext _ _ Hiff).
  - f_equal. rewrite (assoc_L (∪)). by rewrite union_idemp_L.
Qed.

Lemma addContainer_getContainer_witness :
  getContainer (addContainer emptyStructInfo 64 8) sample_struct 8
    = Returns (Some sample_struct)
  ∧ getContainer (addContainer emptyStructInfo 64 8) sample_struct 16
    = getContainer emptyStructInfo sample_struct 16.
Proof.
  destruct (addContainer_getContainer emptyStructInfo sample_struct 8 eq_refl)
    as (Hfound & Hother & _).
  split; [exact Hfound |]. apply Hother. simpl. discriminate.
Defined.

(** ** Sequences of records *)

(** X6: a sequence of [addLeakSourceInfo] calls runs through exactly when
    its keys [(offset, V)] are pairwise different and none is recorded
    already; then every record of the sequence is retrieved by
    [getSiteInfo] under its key, and every key outside the sequence gives
    what it gave before. *)
Theorem recordAll_spec (leakInfo : gmap N (gmap N SiteInfo))
    (entries : list (N * N * SiteInfo)) :
  ((∃ l, recordAll leakInfo entries = Returns l)
   ↔ NoDup entries.*1
     ∧ ∀ k, k ∈ entries.*1 → getSiteInfo leakInfo k.1 k.2 = None)
  ∧ ∀ l, recordAll leakInfo entries = Returns l →
      (∀ e, e ∈ entries → getSiteInfo l e.1.1 e.1.2 = Some e.2)
      ∧ ∀ k, k ∉ entries.*1 →
          getSiteInfo l k.1 k.2 = getSiteInfo leakInfo k.1 k.2.
Proof.
  revert leakInfo.
  induction entries as [| [[o V] i] entries IH]; intros leakInfo; simpl.
  - split.
    + split; [intros _ | by eauto]. split; [constructor |].
      intros k Hk. by apply elem_of_nil in Hk.
    + intros l [= <-]. split; [| done].
      intros e He. by apply elem_of_nil in He.
  - destruct (getSiteInfo leakInfo o V) as [old |] eqn:Hkey.
    + rewrite (addLeakSourceInfo_present leakInfo o V i) by (rewrite Hkey; eauto).
      simpl. split; [| discriminate]. split; [intros [l [=]] |].
      intros [_ Hnone]. specialize (Hnone (o, V)). simpl in Hnone.
      rewrite Hkey in Hnone. discriminate Hnone. apply elem_of_cons. by left.
    + destruct (addLeakSourceInfo_absent leakInfo o V i Hkey)
        as (l1 & -> & Hget & Hother).
      simpl. destruct (IH l1) as [Hruns Hcontent]. split.
      * rewrite Hruns, NoDup_cons. split.
        -- intros [Hnd Hnone]. split.
           ++ split; [| exact Hnd]. intros Hin.
              specialize (Hnone (o, V) Hin). simpl in Hnone. congruence.
           ++ intros k Hk. apply elem_of_cons in Hk as [-> | Hk]; [done |].
              destruct k as [o' V']. simpl.
              rewrite <- (Hother o' V'); [by apply (Hnone (o', V')) |].
              intros [= -> ->]. specialize (Hnone (o, V) Hk). simpl in Hnone.
              congruence.
        -- intros [[Hnotin Hnd] Hnone]. split; [exact Hnd |].
           intros [o' V'] Hk. simpl. rewrite Hother.
           ++ apply (Hnone (o', V')). apply elem_of_cons. by right.
           ++ intros [= -> ->]. done.
      * intros l Hl. destruct (Hcontent l Hl) as [Hin Hout].
        assert ((o, V) ∉ entries.*1) as Hfresh.
        { intros Hin'.
          assert (∃ l', recordAll l1 entries = Returns l') as Hex by eauto.
          apply Hruns in Hex as [_ Hnone].
          specialize (Hnone (o, V) Hin'). simpl in Hnone. congruence. }
        split.
        -- intros e He. apply elem_of_cons in He as [-> | He]; [| by apply Hin].
           pose proof (Hout (o, V) Hfresh) as Hsame. simpl in *.
           rewrite Hsame. exact Hget.
        -- intros [o' V'] Hk. apply not_elem_of_cons in Hk as [Hne Hk].
           pose proof (Hout (o', V') Hk) as Hsame. simpl in *.
           rewrite Hsame. apply Hother. exact Hne.
Qed.

Lemma recordAll_spec_witness :
  (∃ l, recordAll sample_registry
          [(8%N, 4300%N, other_site); (16%N, 4200%N, sample_site)]
        = Returns l)
  ∧ ¬ (∃ l, recordAll sample_registry
              [(8%N, 4300%N, other_site); (8%N, 4200%N, sample_site)]
            = Returns l).
Proof.
  split.
  - apply (proj1 (recordAll_spec sample_registry
                    [(8%N, 4300%N, other_site); (16%N, 4200%N, sample_site)])).
    split.
    + apply (bool_decide_unpack _). vm_compute. exact I.
    + intros k Hk. simpl in Hk.
      apply elem_of_cons in Hk as [-> | Hk]; [vm_compute; reflexivity |].
      apply list_elem_of_singleton in Hk as ->. vm_compute. reflexivity.
  - intros Hruns.
    apply (proj1 (recordAll_spec sample_registry
                    [(8%N, 4300%N, other_site); (8%N, 4200%N, sample_site)]))
      in Hruns as [_ Hnone].
    specialize (Hnone (8%N, 4200%N)). simpl in Hnone.
    assert (getSiteInfo sample_registry 8 4200 = Some sample_site) as Hthere
      by (vm_compute; reflexivity).
    rewrite Hthere in Hnone. discriminate Hnone.
    apply elem_of_cons. right. apply elem_of_cons. by left.
Defined.

(** ** The order of the allocation sites *)

Lemma siteLoop_cases (sites : list CallSite) :
  Forall (λ CI, ∃ r, dedicatedName CI = Returns r) sites →
  (∃ pre s post name,
     sites = pre ++ s :: post
     ∧ Forall (λ CI, dedicatedName CI = Returns None) pre
     ∧ dedicatedName s = Returns (Some name))
  ∨ Forall (λ CI, dedicatedName CI = Returns None) sites.
Proof.
  induction 1 as [| CI sites [[name |] HCI] _ IH].
  - right. constructor.
  - left. exists [], CI, sites, name. split; [reflexivity |].
    split; [constructor | exact HCI].
  - destruct IH as [(pre & s & post & name & -> & Hpre & Hs) | Hnone].
    + left. exists (CI :: pre), s, post, name. split; [reflexivity |].
      split; [by constructor | exact Hs].
    + right. by constructor.
Qed.

(** X7: the result does not depend on the order in which the recorded
    sites are visited, as long as every trace runs through and the sites
    that yield a dedicated name all yield the same one. *)
Theorem getAllocCache_order_irrelevant (sites sites' : list CallSite)
    (a : Z) :
  sites ≡ₚ sites' →
  Forall (λ CI, ∃ r, dedicatedName CI = Returns r) sites →
  (∀ s1 s2 n1 n2, s1 ∈ sites → s2 ∈ sites →
     dedicatedName s1 = Returns (Some n1) →
     dedicatedName s2 = Returns (Some n2) → n1 = n2) →
  getAllocCache sites a = getAllocCache sites' a.
Proof.
  intros Hperm Hret Hagree.
  assert (Forall (λ CI, ∃ r, dedicatedName CI = Returns r) sites') as Hret'
    by (by rewrite <- Hperm).
  unfold getAllocCache.
  destruct (siteLoop_cases sites Hret)
    as [(pre & s & post & name & E & Hpre & Hs) | Hnone];
    destruct (siteLoop_cases sites' Hret')
    as [(pre' & s' & post' & name' & E' & Hpre' & Hs') | Hnone'].
  - rewrite E, E'.
    rewrite (siteLoop_first_name pre post s name false Hpre Hs).
    rewrite (siteLoop_first_name pre' post' s' name' false Hpre' Hs').
    assert (name = name') as ->; [| reflexivity].
    apply (Hagree s s'); try done.
    + rewrite E. apply elem_of_app. right. apply elem_of_cons. by left.
    + rewrite Hperm, E'. apply elem_of_app. right. apply elem_of_cons. by left.
  - assert (s ∈ sites') as Hin.
    { rewrite <- Hperm, E. apply elem_of_app. right. apply elem_of_cons. by left. }
    rewrite Forall_forall in Hnone'. rewrite (Hnone' s Hin) in Hs. discriminate.
  - assert (s' ∈ sites) as Hin.
    { rewrite Hperm, E'. apply elem_of_app. right. apply elem_of_cons. by left. }
    rewrite Forall_forall in Hnone. rewrite (Hnone s' Hin) in Hs'. discriminate.
  - destruct (siteLoop_no_name sites false Hnone) as (b & -> & Hb).
    destruct (siteLoop_no_name sites' false Hnone') as (b' & -> & Hb').
    assert (b = b') as ->; [| reflexivity].
    rewrite <- Hperm in Hb'. destruct b, b'; try reflexivity.
    + symmetry. apply Hb', Hb. reflexivity.
    + apply Hb, Hb'. reflexivity.
Qed.

Lemma getAllocCache_order_irrelevant_witness :
  getAllocCache [kmalloc_site; dedicated_site] 3000
  = getAllocCache [dedicated_site; kmalloc_site] 3000.
Proof.
  apply getAllocCache_order_irrelevant.
  - apply Permutation_swap.
  - constructor; [eexists; vm_compute; reflexivity |].
    constructor; [eexists; vm_compute; reflexivity | constructor].
  - intros s1 s2 n1 n2 H1 H2.
    apply elem_of_cons in H1 as [-> | H1];
      [vm_compute; discriminate |].
    apply list_elem_of_singleton in H1 as ->.
    apply elem_of_cons in H2 as [-> | H2];
      [vm_compute; discriminate |].
    apply list_elem_of_singleton in H2 as ->. congruence.
Defined.

(** Two sites that yield different names: the first one visited decides. *)
Example getAllocCache_order_decides :
  getAllocCache [dedicated_site; other_dedicated_site] 64
    = Returns "my_cache"
  ∧ getAllocCache [other_dedicated_site; dedicated_site] 64
    = Returns "other_cache".
Proof. split; vm_compute; reflexivity. Qed.

(** ** The generic names *)

Lemma pretty_N_char_digit (x : N) : isDigit (pretty_N_char x) = true.
Proof. unfold pretty_N_char. repeat case_match; reflexivity. Qed.

Lemma pretty_N_go_digits (x : N) (s : string) :
  digitsOnly s = true → digitsOnly (pretty_N_go x s) = true.
Proof.
  revert s. induction (N.lt_wf_0 x) as [x _ IH]; intros s Hs.
  destruct (decide (x = 0%N)) as [-> | Hne]; [by rewrite pretty_N_go_0 |].
  rewrite pretty_N_go_step by lia. apply IH.
  - apply N.div_lt; lia.
  - simpl. by rewrite pretty_N_char_digit, Hs.
Qed.

Lemma pretty_N_digits (n : N) : digitsOnly (pretty n) = true.
Proof.
  unfold pretty, pretty_N. destruct (decide (n = 0%N)); [reflexivity |].
  by apply pretty_N_go_digits.
Qed.

Lemma genericCacheName_exponent (a : Z) :
  0 ≤ a ≤ 2 ^ 63 →
  ∃ i, bucketExponent a = Some i ∧ 3 ≤ i ≤ 63
       ∧ double_of_u64 a ≤ 2 ^ i
       ∧ (i = 3 ∨ 2 ^ (i - 1) < double_of_u64 a)
       ∧ genericCacheName a = Returns (bucketName (2 ^ i)).
Proof.
  intros Ha. assert (double_of_u64 a ≤ 2 ^ 63) as Hd
    by (apply double_of_u64_le_pow2; lia).
  destruct (bucketLoop_spec 64 3 a) as (j & E & Hj & Hle & Hmin);
    [lia | | lia |].
  { etrans; [exact Hd |]. apply Z.pow_le_mono_r; lia. }
  assert (j ≤ 63) as Hj63.
  { destruct Hmin as [-> | Hmin]; [lia |].
    destruct (Z.le_gt_cases j 63) as [| Hgt]; [done |].
    assert (2 ^ 63 ≤ 2 ^ (j - 1)) by (apply Z.pow_le_mono_r; lia). lia. }
  exists j. split; [exact E |]. split; [lia |].
  split; [exact Hle |]. split; [exact Hmin |].
  unfold genericCacheName, bucketExponent. rewrite E.
  destruct (Z.leb_spec (2 ^ 64) (2 ^ j)) as [Hbig |]; [| reflexivity].
  assert (2 ^ j ≤ 2 ^ 63) by (apply Z.pow_le_mono_r; lia). lia.
Qed.

Lemma bucketName_special (i : Z) :
  (i = 9 ∨ i = 10 ∨ i = 11 ∨ i = 12) →
  ∃ d, bucketName (2 ^ i) = "kmalloc-" +:+ d ∧ digitsOnly d = false.
Proof.
  intros [-> | [-> | [-> | ->]]]; eexists; split; vm_compute; reflexivity.
Qed.

Lemma bucketName_plain (i : Z) :
  0 ≤ i → ¬ (i = 9 ∨ i = 10 ∨ i = 11 ∨ i = 12) →
  bucketName (2 ^ i) = "kmalloc-" +:+ pretty (Z.to_N (2 ^ i)).
Proof.
  intros Hi Hne. rewrite bucketName_pow2 by done. unfold sizeClassName.
  repeat case_match; try reflexivity; lia.
Qed.

Lemma bucketName_inj (i j : Z) :
  0 ≤ i → 0 ≤ j → bucketName (2 ^ i) = bucketName (2 ^ j) → i = j.
Proof.
  intros Hi Hj.
  destruct (decide (i = 9 ∨ i = 10 ∨ i = 11 ∨ i = 12)) as [Hsi | Hpi];
    destruct (decide (j = 9 ∨ j = 10 ∨ j = 11 ∨ j = 12)) as [Hsj | Hpj].
  - destruct Hsi as [-> | [-> | [-> | ->]]];
      destruct Hsj as [-> | [-> | [-> | ->]]];
      vm_compute; intros; (reflexivity || discriminate).
  - destruct (bucketName_special i Hsi) as (d & Ed & Hd).
    rewrite Ed, (bucketName_plain j Hj Hpj). intros Heq.
    apply (inj (String.app "kmalloc-")) in Heq as ->.
    by rewrite pretty_N_digits in Hd.
  - destruct (bucketName_special j Hsj) as (d & Ed & Hd).
    rewrite Ed, (bucketName_plain i Hi Hpi). intros Heq.
    apply (inj (String.app "kmalloc-")) in Heq as <-.
    by rewrite pretty_N_digits in Hd.
  - rewrite (bucketName_plain i Hi Hpi), (bucketName_plain j Hj Hpj).
    intros Heq. apply (inj (String.app "kmalloc-")) in Heq.
    apply (inj pretty) in Heq.
    apply Z2N.inj in Heq; [| by apply Z.pow_nonneg | by apply Z.pow_nonneg].
    by apply (Z.pow_inj_r 2).
Qed.

(** X8: the generic name tells the bucket.  Two allocation sizes get the
    same generic name exactly when the search stops at the same exponent
    for both, although 4096 is named kmalloc-8k and 8192 kmalloc-8192. *)
Theorem genericCacheName_tells_bucket (a b : Z) :
  0 ≤ a ≤ 2 ^ 63 → 0 ≤ b ≤ 2 ^ 63 →
  genericCacheName a = genericCacheName b
  ↔ bucketExponent a = bucketExponent b.
Proof.
  intros Ha Hb.
  destruct (genericCacheName_exponent a Ha) as (i & Ei & Hi & _ & _ & ->).
  destruct (genericCacheName_exponent b Hb) as (j & Ej & Hj & _ & _ & ->).
  rewrite Ei, Ej. split.
  - intros [= Heq]. f_equal. apply bucketName_inj; (lia || done).
  - intros [= ->]. reflexivity.
Qed.

Lemma genericCacheName_tells_bucket_witness :
  genericCacheName 3000 ≠ genericCacheName 5000
  ∧ genericCacheName 3000 = genericCacheName 4096.
Proof.
  split.
  - intros Heq.
    apply (genericCacheName_tells_bucket 3000 5000) in Heq;
      [vm_compute in Heq; discriminate | |];
      (split; [lia | vm_compute; discriminate]).
  - apply (genericCacheName_tells_bucket 3000 4096);
      [| | vm_compute; reflexivity];
      (split; [lia | vm_compute; discriminate]).
Defined.

(** X9: a larger allocation never lands in a smaller bucket, and no bucket
    is smaller than 8.  For sizes up to 2^53 the exponent found grows with
    the size and is at least 3, and it is 3 for every size up to 8. *)
Theorem bucketExponent_monotone (a b : Z) :
  0 ≤ a → a ≤ b → b ≤ 2 ^ 53 →
  ∃ i j, bucketExponent a = Some i ∧ bucketExponent b = Some j
         ∧ 3 ≤ i ∧ i ≤ j ∧ (b ≤ 8 → j = 3).
Proof.
  intros H0 Hab Hb.
  destruct (genericCacheName_exponent a) as (i & Ei & Hi & _ & Hmin & _).
  { split; [lia |]. etrans; [| apply (Z.pow_le_mono_r 2 53 63); lia]. lia. }
  destruct (genericCacheName_exponent b) as (j & Ej & Hj & Hle & Hminb & _).
  { split; [lia |]. etrans; [| apply (Z.pow_le_mono_r 2 53 63); lia]. lia. }
  rewrite double_of_u64_exact in Hmin, Hle, Hminb by lia.
  exists i, j. split; [exact Ei |]. split; [exact Ej |]. split; [lia |].
  split.
  - destruct Hmin as [-> | Hmin]; [lia |].
    assert (2 ^ (i - 1) < 2 ^ j) as Hpow by lia.
    apply Z.pow_lt_mono_r_iff in Hpow; lia.
  - intros Hsmall. destruct Hminb as [-> | Hminb]; [reflexivity |].
    assert (2 ^ (j - 1) < 2 ^ 3) as Hpow by (change (2 ^ 3) with 8; lia).
    apply Z.pow_lt_mono_r_iff in Hpow; lia.
Qed.

Lemma bucketExponent_monotone_witness :
  ∃ i j, bucketExponent 0 = Some i ∧ bucketExponent 8 = Some j
         ∧ 3 ≤ i ∧ i ≤ j ∧ (8 ≤ 8 → j = 3).
Proof.
  apply bucketExponent_monotone; [lia | lia | vm_compute; discriminate].
Defined.

(** ** Recognising the creation call *)

Lemma prefix_spec (n h : string) :
  String.prefix n h = true ↔ ∃ q, h = n +:+ q.
Proof.
  revert h. induction n as [| c n IH]; intros h; simpl.
  - destruct h; split; eauto.
  - destruct h as [| c' h]; simpl.
    + split; [discriminate | intros [q [=]]].
    + destruct (Ascii.ascii_dec c c') as [-> | Hne].
      * rewrite IH. split; [intros [q ->]; eauto | intros [q [= ->]]; eauto].
      * split; [discriminate | intros [q [= -> _]]; done].
Qed.

Lemma contains_spec (n h : string) :
  contains n h = true ↔ ∃ p q, h = p +:+ n +:+ q.
Proof.
  induction h as [| c h IH].
  - cbn [contains]. rewrite orb_false_r, prefix_spec. split.
    + intros [q ->]. by exists "", q.
    + intros ([| c p] & q & E); [eauto | discriminate].
  - cbn [contains]. rewrite orb_true_iff, prefix_spec, IH. split.
    + intros [[q ->] | (p & q & ->)]; [by exists "", q |].
      by exists (String c p), q.
    + intros ([| c' p] & q & E); [left; eauto |].
      right. injection E as -> ->. eauto.
Qed.

(** X10: a call stored to the cache global counts as the creation call
    exactly when the name of its callee has kmem_cache_create somewhere
    inside; then the C string behind its first argument is the name, and
    otherwise the store is passed over. *)
Theorem traceUser_creation_call (f : Function) (name : string)
    (us ops rest : list Value) :
  ((∃ p q, fn_name f = p +:+ "kmem_cache_create" +:+ q) →
     traceUser
       (StoreInst
          (CallInst (Some f)
             (ConstantExpr true
                (GlobalVariable true
                   (Some (ConstantDataSequential (Some name))) us :: ops)
              :: rest)))
     = Returns (Some name))
  ∧ (¬ (∃ p q, fn_name f = p +:+ "kmem_cache_create" +:+ q) →
     traceUser
       (StoreInst
          (CallInst (Some f)
             (ConstantExpr true
                (GlobalVariable true
                   (Some (ConstantDataSequential (Some name))) us :: ops)
              :: rest)))
     = Returns None).
Proof.
  split; intros H; simpl.
  - apply contains_spec in H. by rewrite H.
  - destruct (contains "kmem_cache_create" (fn_name f)) eqn:E; [| done].
    apply contains_spec in E. done.
Qed.

Lemma traceUser_creation_call_witness :
  traceUser
    (StoreInst
       (CallInst
          (Some (mkFunction "__kmem_cache_create_usercopy" [] false))
          [ConstantExpr true [name_global]]))
    = Returns (Some "my_cache")
  ∧ traceUser
      (StoreInst
         (CallInst (Some (mkFunction "kmem_cache_alloc" [] false))
            [ConstantExpr true [name_global]]))
    = Returns None.
Proof.
  split.
  - apply (proj1 (traceUser_creation_call
                    (mkFunction "__kmem_cache_create_usercopy" [] false)
                    "my_cache" [] [] [])).
    by exists "__", "_usercopy".
  - apply (proj2 (traceUser_creation_call
                    (mkFunction "kmem_cache_alloc" [] false)
                    "my_cache" [] [] [])).
    intros H. apply contains_spec in H. vm_compute in H. discriminate.
Defined.

Lemma scanUsers_first (pre post : list Value) (u : Value) (name : string) :
  Forall (λ v, traceUser v = Returns None) pre →
  traceUser u = Returns (Some name) →
  scanUsers (pre ++ u :: post) = Returns (Some name).
Proof.
  intros Hpre Hu. induction Hpre as [| v pre Hv _ IH]; simpl.
  - by rewrite Hu.
  - by rewrite Hv.
Qed.

(** X11: a dedicated-cache name is recovered end to end.  When the callee
    of a site is a dedicated allocator whose first parameter is a pointer,
    at any depth, to struct.kmem_cache, the producer of operand 0 is a load
    of a global variable, and the first user of that global that is
    recognised as a creation store carries [name], then [getAllocCache]
    returns [name], whatever sites follow and whatever the allocation
    size. *)
Theorem getAllocCache_dedicated (CI : CallSite) (f : Function) (ty : LType)
    (tys : list LType) (st : StructType) (c : bool) (i : option Value)
    (pre post : list Value) (u : Value) (name : string)
    (rest : list CallSite) (a : Z) :
  cs_calledFunction CI = Some f →
  fn_name f ∈ specific_alloc →
  fn_args f = ty :: tys →
  isPointerTy ty = true →
  getStructType (Some ty) = Some st →
  st_name st = "struct.kmem_cache" →
  getProducerOfArgument0 CI
    = Returns (Some (LoadInst (GlobalVariable c i (pre ++ u :: post)))) →
  Forall (λ v, traceUser v = Returns None) pre →
  traceUser u = Returns (Some name) →
  getAllocCache (CI :: rest) a = Returns name.
Proof.
  intros Hf Hspec Hargs Hptr Hst Hname Hprod Hpre Hu.
  unfold getAllocCache. simpl. unfold siteStep. rewrite Hf.
  rewrite (bool_decide_eq_true_2 _ Hspec).
  unfold traceSpecific. rewrite Hargs, Hprod. simpl in Hst |- *.
  rewrite Hst, Hptr, Hname. simpl.
  rewrite (scanUsers_first pre post u name Hpre Hu). reflexivity.
Qed.

Lemma getAllocCache_dedicated_witness :
  getAllocCache [dedicated_site; other_dedicated_site; kmalloc_site] 3000
  = Returns "my_cache".
Proof.
  apply (getAllocCache_dedicated dedicated_site kmem_cache_alloc_fn
           (PointerTy (StructTy kmem_cache_st)) [OtherTy] kmem_cache_st
           false (Some ConstantPointerNull) [] [] (StoreInst creation_call)
           "my_cache").
  - reflexivity.
  - apply (bool_decide_unpack _). vm_compute. exact I.
  - reflexivity.
  - reflexivity.
  - reflexivity.
  - reflexivity.
  - reflexivity.
  - constructor.
  - reflexivity.
Defined.

(** ** Rendering operands and checks *)

Section Rendering.

Variable getScopeName : StructType → N → string.
Variable printValue : Value → string.








End Rendering.



(** ** Byte offsets stay sorted *)

Lemma sorted_below_last (l : list N) (base : N) :
  StronglySorted N.lt l → last l = Some base →
  ∀ x, x ∈ l → (x ≤ base)%N.
Proof.
  intros Hsorted Hlast x Hx. apply last_Some in Hlast as [l' ->].
  apply elem_of_app in Hx as [Hx | Hx].
  - apply N.lt_le_incl.
    apply (StronglySorted_app_1_elem_of N.lt l' [base] x base Hsorted Hx).
    apply elem_of_cons. by left.
  - apply list_elem_of_singleton in Hx as ->. lia.
Qed.

(** X14: splicing keeps the byte offsets strictly increasing.  When the
    offsets of [s] are strictly increasing, those of [other] that are not
    0 are too, and no sum passes the range of an [unsigned],
    [appendFieldOffset] returns, leaves the offsets of [s] in place and
    appends one offset for every entry of [other] that is not 0, all above
    the last offset of [s] and strictly increasing. *)
Theorem appendFieldOffset_sorted (s other : StructInfo) (base : N) :
  last (fieldOffset s) = Some base →
  StronglySorted N.lt (fieldOffset s) →
  StronglySorted N.lt (filter (λ r, r ≠ 0%N) (fieldOffset other)) →
  Forall (λ r, (r + base < 2 ^ 32)%N) (fieldOffset other) →
  ∃ s', appendFieldOffset s other = Returns s'
    ∧ StronglySorted N.lt (fieldOffset s')
    ∧ fieldOffset s `prefix_of` fieldOffset s'
    ∧ length (fieldOffset s')
      = (length (fieldOffset s)
         + length (filter (λ r, r ≠ 0%N) (fieldOffset other)))%nat.
Proof.
  intros Hlast Hmine Htheirs Hfit. unfold appendFieldOffset. rewrite Hlast.
  eexists. split; [reflexivity |]. simpl. rewrite rebaseOffsets_spec.
  assert (rebased base <$> filter (λ r, r ≠ 0%N) (fieldOffset other)
          = (λ r, (r + base)%N) <$> filter (λ r, r ≠ 0%N) (fieldOffset other))
    as ->.
  { apply Forall_fmap_ext_1, Forall_forall. intros r Hr.
    apply list_elem_of_filter in Hr as [_ Hr].
    rewrite Forall_forall in Hfit. unfold rebased, wrap32.
    apply N.mod_small. by apply Hfit. }
  split; [| split].
  - apply StronglySorted_app_2; [| exact Hmine |].
    + intros x1 x2 Hx1 Hx2. apply list_elem_of_fmap in Hx2 as (r & -> & Hr).
      apply list_elem_of_filter in Hr as [Hne _].
      pose proof (sorted_below_last _ _ Hmine Hlast x1 Hx1). lia.
    + eapply StronglySorted_fmap; [| exact Htheirs]. intros x y Hxy. lia.
  - by apply prefix_app_r.
  - by rewrite length_app, length_fmap.
Qed.

Lemma appendFieldOffset_sorted_witness :
  ∃ s', appendFieldOffset (addFieldOffset one_field 8) B_layout = Returns s'
        ∧ StronglySorted N.lt (fieldOffset s')
        ∧ fieldOffset s' = [8; 12]%N.
Proof.
  destruct (appendFieldOffset_sorted (addFieldOffset one_field 8) B_layout 8)
    as (s' & Hrun & Hsorted & _ & _).
  - reflexivity.
  - repeat constructor.
  - replace (fieldOffset B_layout) with [0; 4]%N by (vm_compute; reflexivity).
    repeat constructor.
  - replace (fieldOffset B_layout) with [0; 4]%N by (vm_compute; reflexivity).
    repeat constructor; reflexivity.
  - exists s'. split; [exact Hrun |]. split; [exact Hsorted |].
    vm_compute in Hrun. injection Hrun as <-. reflexivity.
Defined.

(** ** Emptiness *)

Lemma runOps_fieldSize_prefix (ops : list BuildOp) (s s' : StructInfo) :
  runOps s ops = Returns s' → fieldSize s `prefix_of` fieldSize s'.
Proof.
  revert s. induction ops as [| op ops IH]; intros s; simpl.
  - by intros [= <-].
  - destruct op as [n a p u | n | other]; simpl.
    + intros H. etrans; [| exact (IH _ H)]. simpl. by apply prefix_app_r.
    + intros H. exact (IH _ H).
    + unfold appendFields.
      destruct (isEmpty other) as [e | f]; simpl; [| discriminate].
      intros H. etrans; [| exact (IH _ H)]. simpl.
      destruct e; [done | by apply prefix_app_r].
Qed.

(** X15: [isEmpty] is settled by the first size entry.  Once a layout has
    one, no sequence of [addField], [addRealSize] and [appendFields]
    changes what [isEmpty] answers; so a layout that begins with a field
    of size 0 stays empty whatever is added to it. *)
Theorem isEmpty_stable (s s' : StructInfo) (ops : list BuildOp) :
  fieldSize s ≠ [] →
  runOps s ops = Returns s' →
  isEmpty s' = isEmpty s.
Proof.
  intros Hne Hrun.
  destruct (runOps_fieldSize_prefix ops s s' Hrun) as [more Hmore].
  unfold isEmpty. rewrite Hmore. destruct (fieldSize s); done.
Qed.

Lemma isEmpty_stable_witness :
  ∃ s', runOps empty_aggregate
          [OpAddField 1 false true false; OpAppendFields one_field]
        = Returns s'
        ∧ isEmpty s' = Returns true.
Proof.
  destruct (runOps_returns
              [OpAddField 1 false true false; OpAppendFields one_field]
              empty_aggregate) as [s' Hrun].
  { constructor; [discriminate | constructor]. }
  exists s'. split; [exact Hrun |].
  rewrite (isEmpty_stable empty_aggregate s' _ ltac:(discriminate) Hrun).
  reflexivity.
Defined.

(** X16: what the splices read.  A sequence of [addField], [addRealSize]
    and [appendFields] runs through exactly when every layout it splices
    has a size entry ([isEmpty] reads [fieldSize[0]]), whatever the
    receiving layout holds; and [appendFieldOffset] returns exactly when
    the receiving layout has an offset entry ([fieldOffset.back()]). *)
Theorem splice_defined (s other : StructInfo) (ops : list BuildOp) :
  ((∃ s', runOps s ops = Returns s')
   ↔ Forall (λ o, fieldSize o ≠ []) (spliced ops))
  ∧ ((∃ s', appendFieldOffset s other = Returns s') ↔ fieldOffset s ≠ []).
Proof.
  split.
  - split; [| apply runOps_returns].
    revert s. induction ops as [| op ops IH]; intros s; simpl.
    + constructor.
    + intros [s' Hrun]. destruct op as [n a p u | n | o]; simpl in Hrun.
      * apply (IH (addField s n a p u)). eauto.
      * apply (IH (addRealSize s n)). eauto.
      * unfold appendFields, isEmpty in Hrun.
        destruct (fieldSize o) as [| x xs] eqn:E; simpl in Hrun;
          [discriminate |].
        constructor; [by rewrite E | eapply IH; eauto].
  - unfold appendFieldOffset.
    destruct (fieldOffset s) as [| o os] eqn:E; simpl.
    + split; [intros [s' [=]] | done].
    + rewrite last_cons. destruct (last os); split; (done || eauto).
Qed.

Lemma splice_defined_witness :
  ¬ (∃ s', runOps one_field [OpAppendFields emptyStructInfo] = Returns s')
  ∧ ¬ (∃ s', appendFieldOffset emptyStructInfo one_field = Returns s').
Proof.
  destruct (splice_defined one_field one_field
              [OpAppendFields emptyStructInfo]) as [Hrun _].
  destruct (splice_defined emptyStructInfo one_field []) as [_ Hoff].
  split.
  - intros Hex. apply Hrun in Hex. inversion Hex as [| ? ? Hne _]. by apply Hne.
  - intros Hex. apply Hoff in Hex. by apply Hex.
Defined.

(** ** The simplified report *)

Section Simplified.

Variable name : string.
Variable allocaInst : gset N.

Implicit Types (leakInfo : gmap N (gmap N SiteInfo)).

Lemma dumpSimplified_insert_present leakInfo offset sites sites' :
  leakInfo !! offset = Some sites →
  dumpSimplified name allocaInst (<[offset := sites']> leakInfo)
  ≡ₚ dumpSimplified name allocaInst leakInfo.
Proof.
  intros Hthere. unfold dumpSimplified.
  destruct (decide (size allocaInst = 0%nat)); [done |].
  rewrite <- (map_to_list_delete leakInfo offset sites Hthere).
  rewrite <- (insert_delete_eq leakInfo).
  rewrite map_to_list_insert by apply lookup_delete_eq.
  reflexivity.
Qed.

Lemma dumpSimplified_insert_fresh leakInfo offset sites' :
  leakInfo !! offset = None → size allocaInst ≠ 0%nat →
  dumpSimplified name allocaInst (<[offset := sites']> leakInfo)
  ≡ₚ (name +:+ " " +:+ pretty offset +:+ newline)
     :: dumpSimplified name allocaInst leakInfo.
Proof.
  intros Hfresh Hsome. unfold dumpSimplified.
  destruct (decide (size allocaInst = 0%nat)); [done |].
  rewrite map_to_list_insert by done. reflexivity.
Qed.

(** X17: the simplified report has one line for every offset with a
    record, however many sites are recorded at it, and no line at all for
    a type without allocation instructions.  Recording a site at an offset
    that has one already leaves the lines as they are, up to their order;
    recording a site at a new offset adds the line of that offset. *)
Theorem dumpSimplified_lines leakInfo :
  (size allocaInst = 0%nat → dumpSimplified name allocaInst leakInfo = [])
  ∧ (size allocaInst ≠ 0%nat →
     length (dumpSimplified name allocaInst leakInfo) = size leakInfo)
  ∧ ∀ offset V siteInfo leakInfo',
      result (addLeakSourceInfo leakInfo offset V siteInfo)
        = Returns leakInfo' →
      (is_Some (leakInfo !! offset) →
         dumpSimplified name allocaInst leakInfo'
         ≡ₚ dumpSimplified name allocaInst leakInfo)
      ∧ (leakInfo !! offset = None → size allocaInst ≠ 0%nat →
         dumpSimplified name allocaInst leakInfo'
         ≡ₚ (name +:+ " " +:+ pretty offset +:+ newline)
            :: dumpSimplified name allocaInst leakInfo).
Proof.
  split; [| split].
  - intros Hnone. unfold dumpSimplified. by rewrite decide_True.
  - intros Hsome. unfold dumpSimplified. rewrite decide_False by done.
    by rewrite length_fmap, length_map_to_list.
  - intros offset V siteInfo leakInfo'. unfold addLeakSourceInfo.
    destruct (leakInfo !! offset) as [sites |] eqn:Hoff.
    + destruct (sites !! V); simpl; [discriminate |]. intros [= <-].
      split; [| discriminate]. intros _.
      by apply (dumpSimplified_insert_present leakInfo offset sites).
    + simpl. intros [= <-]. split; [by intros [? [=]] |]. intros _ Hsome.
      by apply dumpSimplified_insert_fresh.
Qed.

End Simplified.

Lemma dumpSimplified_lines_witness :
  length (dumpSimplified "struct.msg_msg" {[ 4000%N ]} sample_registry)
  = 1%nat
  ∧ ∃ leakInfo',
      result (addLeakSourceInfo sample_registry 8 4300 other_site)
        = Returns leakInfo'
      ∧ dumpSimplified "struct.msg_msg" {[ 4000%N ]} leakInfo'
        ≡ₚ dumpSimplified "struct.msg_msg" {[ 4000%N ]} sample_registry.
Proof.
  destruct (dumpSimplified_lines "struct.msg_msg" {[ 4000%N ]} sample_registry)
    as (_ & Hcount & Hadd).
  split.
  - rewrite Hcount; [vm_compute; reflexivity | vm_compute; discriminate].
  - eexists. split; [vm_compute; reflexivity |].
    eapply (proj1 (Hadd 8%N 4300%N other_site _ eq_refl)).
    vm_compute. eauto.
Defined.
